(** * The 8-puzzle search engine of [app.py]

    A shallow embedding of [app.py] (the parser of states, the move table,
    the solvability check, the misplaced-tile heuristic, path
    reconstruction, breadth-first search, A* search and the handler of the
    solve button), followed by the properties of the engine.

    Conventions of the embedding:
    - a puzzle state (a Python list or tuple of nine ints) is a [list nat];
      list and tuple are not distinguished, since the code only converts
      between the two;
    - Python dictionaries are [gmap]s; the value [None] stored in
      [came_from] is [None : option state] under the key;
    - a Python exception is the result [Raise e]; a [while] loop is run on
      fuel, and running out of it is the result [OutOfFuel];
    - an input text is a [string], one [ascii] for each character, which
      covers the texts whose characters are code points below 256. *)

From Stdlib Require Import Ascii.
From stdpp Require Import base option list gmap sets sorting strings.

Abbreviation state := (list nat).

(** ** Results of fallible, possibly non-terminating code *)

Inductive exn : Type := ValueError | KeyError | IndexError.

Inductive result (A : Type) : Type :=
| Ok (a : A)
| Raise (e : exn)
| OutOfFuel.

Arguments Ok {A} a.
Arguments Raise {A} e.
Arguments OutOfFuel {A}.

Definition rbind {A B : Type} (r : result A) (k : A → result B) : result B :=
  match r with
  | Ok a => k a
  | Raise e => Raise e
  | OutOfFuel => OutOfFuel
  end.

Definition or_raise {A : Type} (e : exn) (o : option A) : result A :=
  match o with
  | Some a => Ok a
  | None => Raise e
  end.

#[global] Instance result_bind : MBind result := λ A B k r, rbind r k.

(** ** 8-puzzle core logic *)

(** [MOVES]: the positions adjacent to each position of the 3x3 grid. *)
Definition MOVES : gmap nat (list nat) :=
  list_to_map
    [ (0, [1; 3]);
      (1, [0; 2; 4]);
      (2, [1; 5]);
      (3, [0; 4; 6]);
      (4, [1; 3; 5; 7]);
      (5, [2; 4; 8]);
      (6, [3; 7]);
      (7, [4; 6; 8]);
      (8, [5; 7]) ].

(** [l.index(x)]: the first position of [x], [ValueError] when absent. *)
Fixpoint index (x : nat) (l : list nat) : option nat :=
  match l with
  | [] => None
  | y :: l' => if Nat.eqb y x then Some 0 else S <$> index x l'
  end.

(** [l[i]]: [IndexError] out of range. *)
Definition getitem (l : list nat) (i : nat) : result nat :=
  or_raise IndexError (l !! i).

(** [count_inversions]: the pairs [i < j] of non-blank tiles that are out
    of order. *)
Fixpoint count_greater (x : nat) (l : list nat) : nat :=
  match l with
  | [] => 0
  | y :: l' => (if Nat.ltb y x then 1 else 0) + count_greater x l'
  end.

Fixpoint inversions_of (arr : list nat) : nat :=
  match arr with
  | [] => 0
  | x :: arr' => count_greater x arr' + inversions_of arr'
  end.

Definition count_inversions (s : state) : nat :=
  let arr := filter (λ x, x ≠ 0) s in
  inversions_of arr.

Definition is_solvable (s : state) : bool :=
  Nat.eqb (count_inversions s mod 2) 0.

(** [h_misplaced]: the sum, over [i] in [range(9)], of 1 when
    [state[i] != goal[i] and state[i] != 0]. *)
Fixpoint h_sum (idxs : list nat) (s goal : state) : result nat :=
  match idxs with
  | [] => Ok 0
  | i :: idxs' =>
      si ← getitem s i;
      gi ← getitem goal i;
      r ← h_sum idxs' s goal;
      Ok ((if negb (Nat.eqb si gi) && negb (Nat.eqb si 0) then 1 else 0) + r)
  end.

Definition h_misplaced (s goal : state) : result nat :=
  h_sum (seq 0 9) s goal.

(** [reconstruct_path]: follow [came_from] back from [current] until the
    key is absent or maps to [None]; the collected states are reversed. *)
Fixpoint reconstruct_loop (fuel : nat) (came_from : gmap state (option state))
    (current : state) (path : list state) : result (list state) :=
  match fuel with
  | 0 => OutOfFuel
  | S fuel' =>
      match came_from !! current with
      | None => Ok path
      | Some None => Ok path
      | Some (Some prev) =>
          reconstruct_loop fuel' came_from prev (path ++ [prev])
      end
  end.

Definition reconstruct_path (fuel : nat) (came_from : gmap state (option state))
    (current : state) : result (list state) :=
  path ← reconstruct_loop fuel came_from current [current];
  Ok (reverse path).

(** [neighbor = list(current);
     neighbor[blank], neighbor[m] = neighbor[m], neighbor[blank]]:
    the right-hand side is read first, then the two slots are written from
    left to right. *)
Definition swap (current : state) (blank m : nat) : result state :=
  x ← getitem current m;
  y ← getitem current blank;
  Ok (<[m := y]> (<[blank := x]> current)).

(** ** The FIFO queue of [bfs]

    [collections.deque] used with [append] and [popleft] only: a front
    list and a reversed back list. *)
Module Deque.

Record t : Type := Make { front : list state; back : list state }.

Definition of_list (l : list state) : t := Make l [].

Definition to_list (q : t) : list state := front q ++ reverse (back q).

Definition append (q : t) (x : state) : t := Make (front q) (x :: back q).

Definition popleft (q : t) : option (state * t) :=
  match front q with
  | x :: f => Some (x, Make f (back q))
  | [] =>
      match reverse (back q) with
      | x :: f => Some (x, Make f [])
      | [] => None
      end
  end.

End Deque.

(** ** Breadth-first search *)

Record bfs_state : Type := BfsState {
  bfs_queue : Deque.t;
  bfs_came_from : gmap state (option state);
  bfs_expanded : N;
}.

(** The body of [for m in MOVES[blank]]. *)
Fixpoint bfs_for (current : state) (blank : nat) (ms : list nat)
    (queue : Deque.t) (came_from : gmap state (option state))
    : result (Deque.t * gmap state (option state)) :=
  match ms with
  | [] => Ok (queue, came_from)
  | m :: ms' =>
      neighbor ← swap current blank m;
      match came_from !! neighbor with
      | None =>
          bfs_for current blank ms' (Deque.append queue neighbor)
            (<[neighbor := Some current]> came_from)
      | Some _ => bfs_for current blank ms' queue came_from
      end
  end.

(** One iteration of [while queue]: either the function returns ([inr]),
    or the loop goes on with a new state ([inl]). *)
Definition bfs_step (fuel : nat) (goal : state) (st : bfs_state)
    : result (bfs_state + (option (list state) * N)) :=
  match Deque.popleft (bfs_queue st) with
  | None => Ok (inr (None, bfs_expanded st))
  | Some (current, queue) =>
      let expanded := (bfs_expanded st + 1)%N in
      if decide (current = goal) then
        path ← reconstruct_path fuel (bfs_came_from st) current;
        Ok (inr (Some path, expanded))
      else
        blank ← or_raise ValueError (index 0 current);
        ms ← or_raise KeyError (MOVES !! blank);
        '(queue', came_from') ← bfs_for current blank ms queue (bfs_came_from st);
        Ok (inl (BfsState queue' came_from' expanded))
  end.

Fixpoint bfs_loop (fuel : nat) (goal : state) (st : bfs_state)
    : result (option (list state) * N) :=
  match fuel with
  | 0 => OutOfFuel
  | S fuel' =>
      r ← bfs_step fuel' goal st;
      match r with
      | inl st' => bfs_loop fuel' goal st'
      | inr out => Ok out
      end
  end.

Definition bfs_init (start : state) : bfs_state :=
  BfsState (Deque.of_list [start]) {[ start := None ]} 0%N.

Definition bfs (fuel : nat) (start goal : state)
    : result (option (list state) * N) :=
  bfs_loop fuel goal (bfs_init start).

(** ** A* search with the misplaced-tile heuristic *)

(** Python's order on tuples of ints, and on [(f, n_t)] pairs. *)
Fixpoint tuple_compare (a b : list nat) : comparison :=
  match a, b with
  | [], [] => Eq
  | [], _ :: _ => Lt
  | _ :: _, [] => Gt
  | x :: a', y :: b' =>
      match Nat.compare x y with
      | Eq => tuple_compare a' b'
      | c => c
      end
  end.

Definition entry_leb (e1 e2 : nat * state) : bool :=
  match Nat.compare e1.1 e2.1 with
  | Lt => true
  | Gt => false
  | Eq => match tuple_compare e1.2 e2.2 with Gt => false | _ => true end
  end.

(** [heapq]: a priority queue of [(f, n_t)] items. [heappop] removes the
    least item under Python's total order on such pairs, and two items
    that compare equal are the same value, so the item popped does not
    depend on the layout of the heap. The queue is kept as a leftist
    heap; [items] lists what it holds. *)
Module Heapq.

Inductive t : Type :=
| Leaf
| Node (rk : nat) (e : nat * state) (l r : t).

Definition rank (h : t) : nat :=
  match h with
  | Leaf => 0
  | Node rk _ _ _ => rk
  end.

Definition make (e : nat * state) (a b : t) : t :=
  if Nat.leb (rank b) (rank a) then Node (S (rank b)) e a b
  else Node (S (rank a)) e b a.

Fixpoint merge (a : t) : t → t :=
  match a with
  | Leaf => λ b, b
  | Node _ ea la ra =>
      fix merge_a (b : t) : t :=
        match b with
        | Leaf => a
        | Node _ eb lb rb =>
            if entry_leb ea eb then make ea la (merge ra b)
            else make eb lb (merge_a rb)
        end
  end.

Fixpoint items (h : t) : list (nat * state) :=
  match h with
  | Leaf => []
  | Node _ e l r => e :: items l ++ items r
  end.

Definition empty : t := Leaf.

Definition heappush (h : t) (e : nat * state) : t :=
  merge (Node 1 e Leaf Leaf) h.

Definition heappop (h : t) : option ((nat * state) * t) :=
  match h with
  | Leaf => None
  | Node _ e l r => Some (e, merge l r)
  end.

End Heapq.

Record astar_state : Type := AstarState {
  as_open : Heapq.t;
  as_came_from : gmap state (option state);
  as_g_score : gmap state nat;
  as_expanded : N;
}.

Fixpoint astar_for (goal current : state) (blank : nat) (ms : list nat)
    (open_list : Heapq.t) (came_from : gmap state (option state))
    (g_score : gmap state nat)
    : result (Heapq.t * gmap state (option state) * gmap state nat) :=
  match ms with
  | [] => Ok (open_list, came_from, g_score)
  | m :: ms' =>
      neighbor ← swap current blank m;
      gc ← or_raise KeyError (g_score !! current);
      let tentative_g := gc + 1 in
      if match g_score !! neighbor with
         | None => true
         | Some gn => Nat.ltb tentative_g gn
         end
      then
        let g_score' := <[neighbor := tentative_g]> g_score in
        h ← h_misplaced neighbor goal;
        let f := tentative_g + h in
        astar_for goal current blank ms'
          (Heapq.heappush open_list (f, neighbor))
          (<[neighbor := Some current]> came_from) g_score'
      else astar_for goal current blank ms' open_list came_from g_score
  end.

Definition astar_step (fuel : nat) (goal : state) (st : astar_state)
    : result (astar_state + (option (list state) * N)) :=
  match Heapq.heappop (as_open st) with
  | None => Ok (inr (None, as_expanded st))
  | Some ((_, current), open_list) =>
      let expanded := (as_expanded st + 1)%N in
      if decide (current = goal) then
        path ← reconstruct_path fuel (as_came_from st) current;
        Ok (inr (Some path, expanded))
      else
        blank ← or_raise ValueError (index 0 current);
        ms ← or_raise KeyError (MOVES !! blank);
        '(open_list', came_from', g_score') ←
          astar_for goal current blank ms open_list
            (as_came_from st) (as_g_score st);
        Ok (inl (AstarState open_list' came_from' g_score' expanded))
  end.

Fixpoint astar_loop (fuel : nat) (goal : state) (st : astar_state)
    : result (option (list state) * N) :=
  match fuel with
  | 0 => OutOfFuel
  | S fuel' =>
      r ← astar_step fuel' goal st;
      match r with
      | inl st' => astar_loop fuel' goal st'
      | inr out => Ok out
      end
  end.

Definition astar_init (start : state) : astar_state :=
  AstarState (Heapq.heappush Heapq.empty (0, start)) {[ start := None ]}
    {[ start := 0 ]} 0%N.

Definition a_star_misplaced (fuel : nat) (start goal : state)
    : result (option (list state) * N) :=
  astar_loop fuel goal (astar_init start).

(** ** Vocabulary of the properties *)

(** A valid state: a permutation of 0..8. *)
Definition valid (s : state) : Prop := s ≡ₚ seq 0 9.

(** One move: the blank, at position [blank], is exchanged with the tile
    at a position [m] that [MOVES] lists for [blank]. *)
Definition move (s s' : state) : Prop :=
  ∃ blank ms m tile,
    index 0 s = Some blank ∧ MOVES !! blank = Some ms ∧ m ∈ ms ∧
    s !! m = Some tile ∧ s' = <[m := 0]> (<[blank := tile]> s).

(** [reach n a b]: [b] is obtained from [a] by exactly [n] moves. *)
Inductive reach : nat → state → state → Prop :=
| reach_O a : reach 0 a a
| reach_S n a b c : reach n a b → move b c → reach (S n) a c.

Definition reachable (a b : state) : Prop := ∃ n, reach n a b.

(** [min_moves a b n]: the least number of moves from [a] to [b] is [n]. *)
Definition min_moves (a b : state) (n : nat) : Prop :=
  reach n a b ∧ ∀ k, reach k a b → n ≤ k.

(** A sequence of states in which each state is one move from the one
    before it. *)
Fixpoint is_path (p : list state) : Prop :=
  match p with
  | [] => True
  | s :: p' =>
      match p' with
      | [] => True
      | s' :: _ => move s s' ∧ is_path p'
      end
  end.

(** A path from [a] to [b], both included. *)
Definition path_from_to (p : list state) (a b : state) : Prop :=
  head p = Some a ∧ last p = Some b ∧ is_path p.

(** A path read backwards, as [reconstruct_path] collects it. *)
Fixpoint is_rpath (p : list state) : Prop :=
  match p with
  | [] => True
  | s :: p' =>
      match p' with
      | [] => True
      | s' :: _ => move s' s ∧ is_rpath p'
      end
  end.

(** A predecessor map rooted at [start]: only [start] maps to [None],
    every other key maps to a key one move before it, and [rk] decreases
    along the links. *)
Definition pred_map_ok (start : state) (cf : gmap state (option state))
    (rk : state → nat) : Prop :=
  ∀ n o, cf !! n = Some o →
    match o with
    | None => n = start
    | Some p => is_Some (cf !! p) ∧ move p n ∧ rk p < rk n
    end.

(** The valid states, as a finite set. *)
Definition all_states : gset state := list_to_set (permutations (seq 0 9)).

(** The number of valid states. It is used as a bound only and is never
    evaluated. *)
Definition n_states : nat := size all_states.
#[global] Arguments n_states : simpl never.

(** ** The loop invariant of [bfs]

    [dm] gives the depth at which each discovered state was found; the
    queue holds states of depth [d] (the list [A]) followed by states of
    depth [S d] (the list [B]). *)
Record bfs_inv_at (start goal : state) (st : bfs_state)
    (dm : state → nat) (d : nat) (A B : list state) : Prop := BfsInv {
  bi_queue : Deque.to_list (bfs_queue st) = A ++ B;
  bi_A : Forall (λ s, dm s = d) A;
  bi_B : Forall (λ s, dm s = S d) B;
  bi_start : bfs_came_from st !! start = Some None;
  bi_pred : pred_map_ok start (bfs_came_from st) dm;
  bi_dist : ∀ s, is_Some (bfs_came_from st !! s) →
      valid s ∧ min_moves start s (dm s) ∧ dm s < size (bfs_came_from st);
  bi_queued : ∀ s, s ∈ A ++ B → is_Some (bfs_came_from st !! s);
  bi_closed : ∀ s, is_Some (bfs_came_from st !! s) → s ∉ A ++ B →
      s ≠ goal ∧ ∀ s', move s s' → is_Some (bfs_came_from st !! s');
  bi_complete : ∀ s k, reach k start s → k ≤ d →
      is_Some (bfs_came_from st !! s);
  bi_count : N.to_nat (bfs_expanded st) + length (A ++ B)
             = size (bfs_came_from st);
}.

Definition bfs_inv (start goal : state) (st : bfs_state) : Prop :=
  ∃ dm d A B, bfs_inv_at start goal st dm d A B.

(** The heap property: every node holds the least item of its subtree. *)
Fixpoint heap_ordered (h : Heapq.t) : Prop :=
  match h with
  | Heapq.Leaf => True
  | Heapq.Node _ e l r =>
      (∀ e', e' ∈ Heapq.items l ++ Heapq.items r → entry_leb e e' = true) ∧
      heap_ordered l ∧ heap_ordered r
  end.

(** The contribution of position [i] to [h_misplaced]. *)
Definition misplaced_at (s goal : state) (i : nat) : nat :=
  match s !! i, goal !! i with
  | Some si, Some gi =>
      if negb (Nat.eqb si gi) && negb (Nat.eqb si 0) then 1 else 0
  | _, _ => 0
  end.

(** The value of the heuristic for [s], as a number. *)
Definition hval (goal s : state) : nat :=
  sum_list (misplaced_at s goal <$> seq 0 9).

(** The recorded cost of [s], 0 when none is recorded. *)
Definition g_of (g_score : gmap state nat) (s : state) : nat :=
  default 0 (g_score !! s).

(** A measure that every update of [g_score] decreases: the sum of the
    recorded costs, plus [n_states] for each valid state that has
    no cost yet. *)
Definition gsum (g_score : gmap state nat) : nat :=
  map_fold (λ _ v acc, v + acc) 0 g_score.

Definition potential (g_score : gmap state nat) : nat :=
  gsum g_score + (n_states - size g_score) * n_states.

(** What decreases at every iteration of the loop of A*. *)
Definition astar_measure (st : astar_state) : nat :=
  potential (as_g_score st) + length (Heapq.items (as_open st)).

(** ** The loop invariant of [a_star_misplaced]

    Every state with a recorded cost is either waiting in the heap with a
    priority no greater than its cost plus its heuristic, or it is closed:
    all its neighbours have a cost at most one more than its own. *)
Record astar_inv (start goal : state) (st : astar_state) : Prop := AstarInv {
  ai_heap : heap_ordered (as_open st);
  ai_start_cf : as_came_from st !! start = Some None;
  ai_start_g : as_g_score st !! start = Some 0;
  ai_pred : pred_map_ok start (as_came_from st) (g_of (as_g_score st));
  ai_dom : ∀ s, is_Some (as_came_from st !! s) ↔ is_Some (as_g_score st !! s);
  ai_keys : ∀ s gs, as_g_score st !! s = Some gs →
      valid s ∧ gs < size (as_g_score st);
  ai_reach : ∀ s, is_Some (as_g_score st !! s) → reachable start s;
  ai_open : ∀ f s, (f, s) ∈ Heapq.items (as_open st) →
      ∃ gs, as_g_score st !! s = Some gs ∧ gs ≤ f;
  ai_closed : ∀ s gs, as_g_score st !! s = Some gs →
      (∃ f, (f, s) ∈ Heapq.items (as_open st) ∧ f ≤ gs + hval goal s) ∨
      (s ≠ goal ∧
       ∀ s', move s s' →
         ∃ gs', as_g_score st !! s' = Some gs' ∧ gs' ≤ S gs);
}.

(** ** The states a search goes through

    [bfs_run goal st st']: the loop of [bfs], started in [st], is in state
    [st'] after some iterations. [astar_run] is the same for A*. *)
Inductive bfs_run (goal : state) : bfs_state → bfs_state → Prop :=
| bfs_run_refl st : bfs_run goal st st
| bfs_run_step st st' st'' fuel :
    bfs_run goal st st' → bfs_step fuel goal st' = Ok (inl st'') →
    bfs_run goal st st''.

Inductive astar_run (goal : state) : astar_state → astar_state → Prop :=
| astar_run_refl st : astar_run goal st st
| astar_run_step st st' st'' fuel :
    astar_run goal st st' → astar_step fuel goal st' = Ok (inl st'') →
    astar_run goal st st''.

(** ** The solve button

    The part of the handler between parsing and drawing: the solvability
    gate, the selected search, and the numbers shown. [NotSolvable] and
    [NoSolution] are the two [st.error] pages. *)
Inductive algo : Type := AStar | BFS.

Inductive page : Type :=
| NotSolvable (inversions : nat)
| NoSolution
| Solution (path : list state) (solution_len : nat) (expanded : N).

Definition solve (fuel : nat) (alg : algo) (start_state goal_state : state)
    : result page :=
  if negb (is_solvable start_state) then
    Ok (NotSolvable (count_inversions start_state))
  else
    '(path, expanded) ←
      match alg with
      | AStar => a_star_misplaced fuel start_state goal_state
      | BFS => bfs fuel start_state goal_state
      end;
    match path with
    | None => Ok NoSolution
    | Some p => Ok (Solution p (length p - 1) expanded)
    end.

(** The handler stopped at the solvability gate. *)
Definition rejected (r : result page) : bool :=
  match r with
  | Ok (NotSolvable _) => true
  | _ => false
  end.

(** The canonical goal. *)
Definition canonical_goal : state := [1; 2; 3; 4; 5; 6; 7; 8; 0].

(** The start state of the first concrete scenario. *)
Definition scenario_start : state := [1; 8; 7; 0; 3; 5; 2; 4; 6].

(** Fuel that is enough for A* on the scenario. *)
Definition scenario_fuel : nat := 21000.
#[global] Arguments scenario_fuel : simpl never.

(** [bfs_iter k goal st]: the state of the loop of [bfs] after [k]
    iterations from [st], if none of them returns. *)
Fixpoint bfs_iter (k : nat) (goal : state) (st : bfs_state)
    : option bfs_state :=
  match k with
  | 0 => Some st
  | S k' =>
      match bfs_step 0 goal st with
      | Ok (inl st') => bfs_iter k' goal st'
      | _ => None
      end
  end.


(** ** Vocabulary of the solvability theorem *)

(** The states produced by the loop [for m in MOVES[blank]] from
    [current]: one per listed position, in order. *)
Definition neighbors (current : state) : list state :=
  match index 0 current with
  | Some blank =>
      match MOVES !! blank with
      | Some ms =>
          omap (λ m, match swap current blank m with
                     | Ok n => Some n
                     | _ => None
                     end) ms
      | None => []
      end
  | None => []
  end.

(** Backward exploration from a target: a state [n] next to an explored
    state [c] is added when [keep n] holds and [c] is one move from [n]. *)
Fixpoint explore_add (keep : state → bool) (c : state) (ns : list state)
    (seen : gmap state unit) (frontier : list state)
    : gmap state unit * list state :=
  match ns with
  | [] => (seen, frontier)
  | n :: ns' =>
      match seen !! n with
      | Some _ => explore_add keep c ns' seen frontier
      | None =>
          if keep n && bool_decide (c ∈ neighbors n)
          then explore_add keep c ns' (<[n := ()]> seen) (n :: frontier)
          else explore_add keep c ns' seen frontier
      end
  end.

Fixpoint explore (fuel : nat) (keep : state → bool) (frontier : list state)
    (seen : gmap state unit) : gmap state unit :=
  match fuel, frontier with
  | S fuel', c :: frontier' =>
      let '(seen', frontier'') :=
        explore_add keep c (neighbors c) seen frontier' in
      explore fuel' keep frontier'' seen'
  | _, _ => seen
  end.

Definition explored (fuel : nat) (keep : state → bool) (target : state)
    : gmap state unit :=
  explore fuel keep [target] {[target := ()]}.

(** Exchange of the elements at positions [i] and [i + 1]. *)
Fixpoint adj_swap (i : nat) (l : list nat) : list nat :=
  match i, l with
  | 0, x :: y :: l' => y :: x :: l'
  | S i', x :: l' => x :: adj_swap i' l'
  | _, _ => l
  end.

(** A set of nine-cell boards closed under the exchange of adjacent
    cells. *)
Definition adj_closed (L : gmap state unit) : bool :=
  forallb (λ a, Nat.eqb (length a) 9 &&
                forallb (λ i, bool_decide (is_Some (L !! adj_swap i a)))
                        (seq 0 8))
          (map_to_list L).*1.

(** First stage: the tiles 4..8 are not told apart. *)
Definition blur (x : nat) : nat := if x <? 4 then x else 9.

Definition top_row_target : state := [1; 2; 3; 9; 9; 9; 9; 9; 0].

Definition top_row_states : gmap state unit :=
  explored 4000 (λ _, true) top_row_target.

(** Second stage: the top row stays [1; 2; 3]. *)
Definition top_row_done (s : state) : bool :=
  bool_decide (take 3 s = [1; 2; 3]).

Definition bottom_states : gmap state unit :=
  explored 400 top_row_done canonical_goal.

Definition bottom_complete : bool :=
  forallb (λ p, let s := [1; 2; 3] ++ p ++ [0] in
                implb (is_solvable s) (bool_decide (is_Some (bottom_states !! s))))
          (permutations [4; 5; 6; 7; 8]).

(** The start state of scenario 3. *)
Definition scenario_3_start : state := [1; 2; 3; 4; 5; 6; 8; 7; 0].


(** ** Parsing a state

    A text is a Python [str] whose characters are code points below 256,
    one [ascii] each. *)

(** [str.isspace] on these characters: the separators of [split()]. *)
Definition py_isspace (c : ascii) : bool :=
  let n := nat_of_ascii c in
  ((9 <=? n) && (n <=? 13)) || ((28 <=? n) && (n <=? 32))
  || (n =? 133) || (n =? 160).

(** [text.replace(",", " ")], one character at a time. *)
Definition replace_comma (c : ascii) : ascii :=
  if Ascii.eqb c ","%char then " "%char else c.

(** [text.split()]: the maximal runs of characters that are not spaces. *)
Fixpoint split (text : list ascii) : list (list ascii) :=
  match text with
  | [] => []
  | c :: text' =>
      let parts := split text' in
      if py_isspace c then parts
      else
        match text' with
        | [] => [[c]]
        | c' :: _ =>
            if py_isspace c' then [c] :: parts
            else
              match parts with
              | part :: parts' => (c :: part) :: parts'
              | [] => [[c]]
              end
        end
  end.

Definition digit_value (c : ascii) : option Z :=
  let n := nat_of_ascii c in
  if (48 <=? n) && (n <=? 57) then Some (Z.of_nat (n - 48)) else None.

(** The digits of an integer literal: decimal digits with single
    underscores between them. The result is the value and the number of
    digits. *)
Fixpoint int_digits (prev_underscore : bool) (acc : Z) (digits : nat)
    (l : list ascii) : option (Z * nat) :=
  match l with
  | [] => if prev_underscore then None else Some (acc, digits)
  | c :: l' =>
      if Ascii.eqb c "_"%char then
        if prev_underscore then None else int_digits true acc digits l'
      else
        match digit_value c with
        | Some d => int_digits false (10 * acc + d) (S digits) l'
        | None => None
        end
  end.

(** [int(x)] on a part without spaces: an optional sign, then the digits.
    [max_str_digits] is the interpreter's limit on the length of decimal
    strings ([sys.get_int_max_str_digits()]; 0 when there is none), which
    applies above 640 digits. *)
Definition py_int (max_str_digits : nat) (x : list ascii) : result Z :=
  let '(negative, body) :=
    match x with
    | c :: x' =>
        if Ascii.eqb c "+"%char then (false, x')
        else if Ascii.eqb c "-"%char then (true, x')
        else (false, x)
    | [] => (false, x)
    end in
  match body with
  | [] => Raise ValueError
  | c :: _ =>
      if Ascii.eqb c "_"%char then Raise ValueError
      else
        match int_digits false 0 0 body with
        | None => Raise ValueError
        | Some (v, digits) =>
            if (640 <? digits) && (0 <? max_str_digits)
               && (max_str_digits <? digits)
            then Raise ValueError
            else Ok (if negative then (- v)%Z else v)
        end
  end.

(** [[int(x) for x in parts]] *)
Fixpoint ints (max_str_digits : nat) (parts : list (list ascii))
    : result (list Z) :=
  match parts with
  | [] => Ok []
  | x :: parts' =>
      n ← py_int max_str_digits x;
      ns ← ints max_str_digits parts';
      Ok (n :: ns)
  end.

(** [parse_state]. The integers returned are those of [range(9)], so they
    are given as a [state]. *)
Definition parse_state (max_str_digits : nat) (text : string) : result state :=
  let parts := split (replace_comma <$> String.list_ascii_of_string text) in
  if negb (length parts =? 9) then Raise ValueError
  else
    nums ← ints max_str_digits parts;
    if negb (bool_decide (merge_sort Z.le nums = Z.of_nat <$> seq 0 9))
    then Raise ValueError
    else Ok (Z.to_nat <$> nums).

(** The text of a valid state: its digits, with [sep] between them. *)
Definition digit_char (d : nat) : ascii := ascii_of_nat (48 + d).
#[global] Arguments digit_char : simpl never.

Fixpoint join (sep : list ascii) (parts : list (list ascii)) : list ascii :=
  match parts with
  | [] => []
  | [x] => x
  | x :: parts' => x ++ sep ++ join sep parts'
  end.

Definition state_text (sep : list ascii) (s : state) : string :=
  String.string_of_list_ascii (join sep ((λ d, [digit_char d]) <$> s)).

(** ** The grid *)

Definition row (i : nat) : nat := i / 3.
Definition col (i : nat) : nat := i mod 3.

(** Two cells next to each other in a row or in a column. *)
Definition adjacent (b m : nat) : Prop :=
  (row b = row m ∧ (col b + 1 = col m ∨ col m + 1 = col b)) ∨
  (col b = col m ∧ (row b + 1 = row m ∨ row m + 1 = row b)).

(** The lower rows of the states with an odd number of inversions. *)
Definition bottom_states_odd : gmap state unit :=
  explored 400 top_row_done scenario_3_start.

Definition bottom_complete_odd : bool :=
  forallb (λ p, let s := [1; 2; 3] ++ p ++ [0] in
                implb (negb (is_solvable s))
                      (bool_decide (is_Some (bottom_states_odd !! s))))
          (permutations [4; 5; 6; 7; 8]).

(** ** The solve button, from the texts to the animation *)



(** Lines 241 to 253: what is written under the grid at each step. *)
Record step_view : Type := StepView {
  sv_g : nat;
  sv_state : state;
  sv_h : option nat;
  sv_f : option nat
}.

Fixpoint step_views (alg : algo) (goal_state : state) (step_idx : nat)
    (path : list state) : result (list step_view) :=
  match path with
  | [] => Ok []
  | s :: path' =>
      h ← match alg with
          | AStar => h ← h_misplaced s goal_state; Ok (Some h)
          | BFS => Ok None
          end;
      let f := (λ h, step_idx + h) <$> h in
      views ← step_views alg goal_state (S step_idx) path';
      Ok (StepView step_idx s h f :: views)
  end.


(** * Basic facts *)

Lemma bind_Ok {A B} (r : result A) (k : A → result B) b :
  (r ≫= k) = Ok b ↔ ∃ a, r = Ok a ∧ k a = Ok b.
Proof.
  destruct r as [a| |]; simpl; split.
  - intros H. exists a. done.
  - intros (a' & [= ->] & H). done.
  - done.
  - intros (a' & ? & ?). done.
  - done.
  - intros (a' & ? & ?). done.
Qed.

Ltac res_simpl := cbn [mbind result_bind rbind or_raise].

Lemma or_raise_Ok {A} e (o : option A) a : or_raise e o = Ok a ↔ o = Some a.
Proof. destruct o; simpl; split; congruence. Qed.

Lemma getitem_Ok l i x : getitem l i = Ok x ↔ l !! i = Some x.
Proof. apply or_raise_Ok. Qed.

Lemma index_Some x l i :
  index x l = Some i → l !! i = Some x ∧ ∀ j, j < i → l !! j ≠ Some x.
Proof.
  revert i. induction l as [|y l IH]; intros i; simpl; [done|].
  destruct (Nat.eqb_spec y x) as [->|Hne].
  - intros [= <-]. split; [done|]. intros j Hj. lia.
  - destruct (index x l) as [i'|] eqn:E; simpl; [|done].
    intros [= <-]. destruct (IH i' eq_refl) as [H1 H2]. split; [done|].
    intros [|j] Hj; simpl; [congruence|]. apply H2. lia.
Qed.

Lemma index_is_Some x l : x ∈ l → is_Some (index x l).
Proof.
  induction 1 as [y l|y z l H IH]; simpl.
  - rewrite Nat.eqb_refl. eauto.
  - destruct (Nat.eqb z y); [eauto|]. destruct IH as [i ->]. simpl. eauto.
Qed.

Lemma MOVES_lookup blank ms :
  MOVES !! blank = Some ms →
  blank < 9 ∧
  ∀ m, m ∈ ms → m < 9 ∧ m ≠ blank ∧ ∃ ms', MOVES !! m = Some ms' ∧ blank ∈ ms'.
Proof.
  intros H. apply elem_of_list_to_map_2 in H.
  repeat (apply elem_of_cons in H as [[= -> ->]|H]);
    [..|by apply elem_of_nil in H];
    (split; [lia|]); intros m Hm;
    repeat (apply elem_of_cons in Hm as [->|Hm]);
    try (by apply elem_of_nil in Hm);
    (split; [lia|split; [lia|]]); eexists; (split; [reflexivity|]);
    set_solver.
Qed.

Lemma MOVES_is_Some blank : blank < 9 → is_Some (MOVES !! blank).
Proof.
  intros H. do 9 (destruct blank as [|blank]; [by eexists|]). lia.
Qed.

(** ** Valid states *)

Lemma valid_length s : valid s → length s = 9.
Proof. unfold valid. intros H. by rewrite H. Qed.

Lemma valid_NoDup s : valid s → NoDup s.
Proof. unfold valid. intros H. rewrite H. apply NoDup_seq. Qed.

Lemma valid_elem s x : valid s → x ∈ s ↔ x < 9.
Proof. unfold valid. intros H. rewrite H, elem_of_seq. lia. Qed.

Lemma valid_index s : valid s → ∃ blank, index 0 s = Some blank ∧ blank < 9.
Proof.
  intros H. destruct (index_is_Some 0 s) as [b Hb].
  { apply valid_elem; [done|lia]. }
  exists b. split; [done|]. apply index_Some in Hb as [Hb _].
  apply lookup_lt_Some in Hb. by rewrite valid_length in Hb.
Qed.

Lemma insert_swap_head (l : list nat) j x y :
  l !! j = Some y → y :: <[j := x]> l ≡ₚ x :: l.
Proof.
  revert j. induction l as [|a l IH]; intros [|j]; simpl; try done.
  - intros [= ->]. apply perm_swap.
  - intros H. rewrite (perm_swap a), (IH _ H). apply perm_swap.
Qed.

Lemma insert_swap_perm (l : list nat) i j x y :
  l !! i = Some x → l !! j = Some y → <[j := x]> (<[i := y]> l) ≡ₚ l.
Proof.
  revert i j. induction l as [|a l IH]; intros [|i] [|j]; simpl; try done.
  - intros [= ->] [= ->]. done.
  - intros [= ->] H. by apply insert_swap_head.
  - intros H [= ->]. rewrite (insert_swap_head _ _ _ _ H). done.
  - intros Hi Hj. f_equiv. by apply IH.
Qed.

Lemma swap_Ok s blank m s' :
  swap s blank m = Ok s' ↔
  ∃ x y, s !! m = Some x ∧ s !! blank = Some y ∧
         s' = <[m := y]> (<[blank := x]> s).
Proof.
  unfold swap. rewrite bind_Ok. setoid_rewrite bind_Ok.
  setoid_rewrite getitem_Ok. split.
  - intros (x & Hx & y & Hy & [= <-]). eauto.
  - intros (x & y & Hx & Hy & ->). eauto.
Qed.

Lemma move_swap s s' :
  move s s' ↔
  ∃ blank ms m, index 0 s = Some blank ∧ MOVES !! blank = Some ms ∧
                m ∈ ms ∧ swap s blank m = Ok s'.
Proof.
  split.
  - intros (b & ms & m & t & Hb & Hms & Hm & Ht & ->).
    exists b, ms, m. repeat split; try done. apply swap_Ok.
    exists t, 0. repeat split; try done. by apply index_Some in Hb as [? _].
  - intros (b & ms & m & Hb & Hms & Hm & Hs).
    apply swap_Ok in Hs as (x & y & Hx & Hy & ->).
    pose proof (index_Some _ _ _ Hb) as [Hb0 _].
    assert (y = 0) as -> by congruence.
    exists b, ms, m, x. done.
Qed.

Lemma move_perm s s' : move s s' → s' ≡ₚ s.
Proof.
  intros (b & ms & m & t & Hb & Hms & Hm & Ht & ->).
  apply index_Some in Hb as [Hb _]. by apply insert_swap_perm.
Qed.

Lemma move_valid s s' : valid s → move s s' → valid s'.
Proof. unfold valid. intros H Hm. by rewrite (move_perm _ _ Hm). Qed.

(** In a valid state every position listed by [MOVES] yields a move. *)
Lemma valid_swap s blank ms m :
  valid s → index 0 s = Some blank → MOVES !! blank = Some ms → m ∈ ms →
  ∃ s', swap s blank m = Ok s' ∧ move s s' ∧ valid s'.
Proof.
  intros Hv Hb Hms Hm.
  destruct (MOVES_lookup _ _ Hms) as [_ Hall].
  destruct (Hall m Hm) as (Hm9 & _ & _).
  destruct (lookup_lt_is_Some_2 s m) as [x Hx].
  { by rewrite valid_length. }
  pose proof (index_Some _ _ _ Hb) as [Hb0 _].
  assert (swap s blank m = Ok (<[m := 0]> (<[blank := x]> s))) as Hs.
  { apply swap_Ok. eauto. }
  eexists. split; [done|].
  assert (move s (<[m := 0]> (<[blank := x]> s))) as Hmv.
  { apply move_swap. eauto 10. }
  split; [done|]. by eapply move_valid.
Qed.

Lemma move_sym s s' : valid s → move s s' → move s' s.
Proof.
  intros Hv (b & ms & m & t & Hb & Hms & Hm & Ht & ->).
  destruct (MOVES_lookup _ _ Hms) as [Hb9 Hall].
  destruct (Hall m Hm) as (Hm9 & Hne & ms' & Hms' & Hbm).
  pose proof (index_Some _ _ _ Hb) as [Hb0 Hbmin].
  pose proof (valid_length _ Hv) as Hlen.
  pose proof (valid_NoDup _ Hv) as Hnd.
  assert (t ≠ 0) as Ht0.
  { intros ->. apply Hne. by apply (NoDup_lookup s m b 0). }
  set (s' := <[m := 0]> (<[b := t]> s)) in *.
  assert (index 0 s' = Some m) as Hidx.
  { assert (valid s') as Hv'.
    { eapply move_valid; [done|]. exists b, ms, m, t. done. }
    destruct (valid_index _ Hv') as (b' & Hb' & _). rewrite Hb'. f_equal.
    apply index_Some in Hb' as [Hb' _].
    assert (s' !! m = Some 0) as Hm0.
    { apply list_lookup_insert_eq. rewrite length_insert. lia. }
    apply (NoDup_lookup s' b' m 0); [by apply valid_NoDup|done|done]. }
  exists m, ms', b, t. repeat split; try done.
  - unfold s'. rewrite list_lookup_insert_ne by done.
    apply list_lookup_insert_eq. lia.
  - unfold s'. apply list_eq. intros i.
    destruct (decide (i = b)) as [->|Hib].
    + rewrite list_lookup_insert_eq; [done|]. rewrite !length_insert. lia.
    + rewrite list_lookup_insert_ne by done.
      destruct (decide (i = m)) as [->|Him].
      * rewrite list_lookup_insert_eq by (rewrite !length_insert; lia). done.
      * rewrite !list_lookup_insert_ne by done. done.
Qed.

Lemma move_ne s s' : valid s → move s s' → s ≠ s'.
Proof.
  intros Hv (b & ms & m & t & Hb & Hms & Hm & Ht & ->) Heq.
  destruct (MOVES_lookup _ _ Hms) as [Hb9 Hall].
  destruct (Hall m Hm) as (Hm9 & Hne & _).
  pose proof (index_Some _ _ _ Hb) as [Hb0 _].
  pose proof (valid_length _ Hv) as Hlen.
  assert (s !! m = Some 0) as Hm0.
  { rewrite Heq at 1. apply list_lookup_insert_eq. rewrite length_insert. lia. }
  apply Hne. apply (NoDup_lookup s m b 0); [by apply valid_NoDup|done|done].
Qed.

(** ** Reachability and paths *)

Lemma reach_valid n a b : valid a → reach n a b → valid b.
Proof. intros Hv. induction 1; eauto using move_valid. Qed.

Lemma reach_trans n k a b c : reach n a b → reach k b c → reach (n + k) a c.
Proof.
  intros Hab Hbc. induction Hbc as [|k b c d Hbc IH Hcd].
  - by rewrite Nat.add_0_r.
  - rewrite Nat.add_succ_r. eapply reach_S; eauto.
Qed.

Lemma reach_1 a b : move a b → reach 1 a b.
Proof. intros H. eapply reach_S; [apply reach_O|done]. Qed.

Lemma reach_cons n a b c : move a b → reach n b c → reach (S n) a c.
Proof. intros Hab Hbc. apply (reach_trans 1 n a b c); [by apply reach_1|done]. Qed.

Lemma reach_sym n a b : valid a → reach n a b → reach n b a.
Proof.
  intros Hv. induction 1 as [|n a b c Hab IH Hbc]; [apply reach_O|].
  eapply reach_cons; [|by apply IH].
  apply move_sym; [|done]. by eapply reach_valid.
Qed.

Lemma reach_inv_S n a c : reach (S n) a c → ∃ b, reach n a b ∧ move b c.
Proof. inversion 1; subst; eauto. Qed.

Lemma reach_inv_O a b : reach 0 a b → a = b.
Proof. by inversion 1. Qed.

Lemma reachable_sym a b : valid a → reachable a b → reachable b a.
Proof. intros Hv [n H]. exists n. by apply reach_sym. Qed.

Lemma is_path_snoc p x y :
  is_path (p ++ [x]) → move x y → is_path ((p ++ [x]) ++ [y]).
Proof.
  induction p as [|a p IH]; simpl; [done|].
  destruct p as [|b p]; simpl in *.
  - intros [H1 _] H2. done.
  - intros [H1 H2] H3. split; [done|]. by apply IH.
Qed.

Lemma is_rpath_reverse p : is_rpath p → is_path (reverse p).
Proof.
  induction p as [|a p IH]; [done|].
  destruct p as [|b p]; [done|].
  intros [Hm Hp]. specialize (IH Hp).
  rewrite reverse_cons. rewrite reverse_cons in IH |- *.
  by apply is_path_snoc.
Qed.

Lemma is_path_reach p a b :
  path_from_to p a b → reach (length p - 1) a b.
Proof.
  intros (Hh & Hl & Hp). revert a Hh Hp.
  induction p as [|x p IH]; intros a Hh Hp; [done|].
  simpl in Hh. injection Hh as ->. destruct p as [|y p].
  - simpl in Hl. injection Hl as ->. apply reach_O.
  - destruct Hp as [Hm Hp]. simpl.
    replace (length p - 0) with (length p) by lia.
    eapply reach_cons; [done|].
    specialize (IH Hl y eq_refl Hp). simpl in IH.
    by replace (length p - 0) with (length p) in IH by lia.
Qed.

(** ** Path reconstruction *)

Lemma reconstruct_loop_sound start cf rk fuel cur acc res :
  pred_map_ok start cf rk → is_Some (cf !! cur) →
  reconstruct_loop fuel cf cur acc = Ok res →
  ∃ chain, res = acc ++ chain ∧ length chain ≤ rk cur ∧
           is_rpath (cur :: chain) ∧ last (cur :: chain) = Some start.
Proof.
  intros Hok. revert cur acc. induction fuel as [|fuel IH]; intros cur acc;
    [done|]. intros [o Ho]. simpl. rewrite Ho.
  pose proof (Hok _ _ Ho) as Hcur. destruct o as [p|].
  - destruct Hcur as (Hp & Hm & Hrk). intros Hres.
    destruct (IH _ _ Hp Hres) as (chain & -> & Hlen & Hpath & Hlast).
    exists (p :: chain). rewrite <- app_assoc.
    split; [done|]. split; [simpl; lia|]. split; [|done].
    split; [done|]. apply Hpath.
  - intros [= <-]. exists []. rewrite app_nil_r. subst cur. simpl.
    repeat split; lia.
Qed.

Lemma reconstruct_loop_terminates start cf rk fuel cur acc :
  pred_map_ok start cf rk → is_Some (cf !! cur) → rk cur < fuel →
  ∃ res, reconstruct_loop fuel cf cur acc = Ok res.
Proof.
  intros Hok. revert cur acc. induction fuel as [|fuel IH]; intros cur acc;
    [lia|]. intros [o Ho] Hrk. simpl. rewrite Ho.
  pose proof (Hok _ _ Ho) as Hcur. destruct o as [p|]; [|eauto].
  destruct Hcur as (Hp & Hm & Hrk'). apply IH; [done|lia].
Qed.

Lemma reconstruct_path_sound start cf rk fuel cur path :
  pred_map_ok start cf rk → is_Some (cf !! cur) →
  reconstruct_path fuel cf cur = Ok path →
  path_from_to path start cur ∧ length path ≤ S (rk cur).
Proof.
  intros Hok Hcur. unfold reconstruct_path. rewrite bind_Ok.
  intros (res & Hres & [= <-]).
  destruct (reconstruct_loop_sound _ _ _ _ _ _ _ Hok Hcur Hres)
    as (chain & -> & Hlen & Hpath & Hlast).
  change ([cur] ++ chain) with (cur :: chain). repeat split.
  - by rewrite head_reverse.
  - by rewrite last_reverse.
  - by apply is_rpath_reverse.
  - rewrite length_reverse. simpl. lia.
Qed.

Lemma reconstruct_path_terminates start cf rk fuel cur :
  pred_map_ok start cf rk → is_Some (cf !! cur) → rk cur < fuel →
  ∃ path, reconstruct_path fuel cf cur = Ok path.
Proof.
  intros Hok Hcur Hrk.
  destruct (reconstruct_loop_terminates _ _ _ _ _ [cur] Hok Hcur Hrk)
    as [res Hres].
  unfold reconstruct_path. rewrite Hres. simpl. eauto.
Qed.

(** ** The queue *)

Lemma deque_of_list l : Deque.to_list (Deque.of_list l) = l.
Proof. unfold Deque.to_list. simpl. by rewrite app_nil_r. Qed.

Lemma deque_append q x :
  Deque.to_list (Deque.append q x) = Deque.to_list q ++ [x].
Proof.
  unfold Deque.to_list. simpl. by rewrite reverse_cons, app_assoc.
Qed.

Lemma deque_popleft_Some q x q' :
  Deque.popleft q = Some (x, q') → Deque.to_list q = x :: Deque.to_list q'.
Proof.
  unfold Deque.popleft, Deque.to_list. destruct q as [f b]. simpl.
  destruct f as [|y f].
  - destruct (reverse b) as [|y f] eqn:E; [done|].
    intros [= <- <-]. simpl. by rewrite app_nil_r.
  - intros [= <- <-]. done.
Qed.

Lemma deque_popleft_None q : Deque.popleft q = None → Deque.to_list q = [].
Proof.
  unfold Deque.popleft, Deque.to_list. destruct q as [f b]. simpl.
  destruct f as [|y f]; [|done]. by destruct (reverse b).
Qed.


(** * Breadth-first search *)

Lemma valid_all_states s : valid s → s ∈ all_states.
Proof.
  intros H. unfold all_states. apply elem_of_list_to_set.
  apply permutations_Permutation. by symmetry.
Qed.

Lemma valid_keys_size {A} (m : gmap state A) :
  (∀ s, is_Some (m !! s) → valid s) → size m ≤ n_states.
Proof.
  intros H. unfold n_states.
  rewrite <- (size_dom (D := gset state)). apply subseteq_size.
  intros s Hs. apply elem_of_dom in Hs. by apply valid_all_states, H.
Qed.

Lemma bfs_for_spec (x : state) (blank : nat) (ms0 ms : list nat)
    (qd : Deque.t) (cf : gmap state (option state)) :
  valid x → index 0 x = Some blank → MOVES !! blank = Some ms0 →
  (∀ m, m ∈ ms → m ∈ ms0) →
  ∃ qd' cf' news,
    bfs_for x blank ms qd cf = Ok (qd', cf') ∧
    Deque.to_list qd' = Deque.to_list qd ++ news ∧
    (∀ s, s ∈ news → cf !! s = None ∧ move x s ∧ cf' !! s = Some (Some x)) ∧
    (∀ s, s ∉ news → cf' !! s = cf !! s) ∧
    (∀ m s', m ∈ ms → swap x blank m = Ok s' → is_Some (cf' !! s')) ∧
    size cf' = size cf + length news.
Proof.
  intros Hv Hb Hms0. revert qd cf.
  induction ms as [|m ms IH]; intros qd cf Hsub.
  { exists qd, cf, []. simpl. rewrite app_nil_r. split_and!; try done.
    - intros s Hs. by apply elem_of_nil in Hs.
    - intros m s' Hm. by apply elem_of_nil in Hm. }
  destruct (valid_swap x blank ms0 m Hv Hb Hms0) as (s1 & Hs1 & Hmv & Hv1).
  { apply Hsub. left. }
  assert (∀ m, m ∈ ms → m ∈ ms0) as Hsub'.
  { intros m' Hm'. apply Hsub. by right. }
  simpl. rewrite Hs1. simpl. destruct (cf !! s1) as [o|] eqn:Hcf.
  - destruct (IH qd cf Hsub') as (qd' & cf' & news & Hrun & Hq & Hnew & Hold & Hcl & Hsz).
    exists qd', cf', news. split_and!; try done.
    intros m' s' Hm' Hs'. apply elem_of_cons in Hm' as [->|Hm']; [|eauto].
    assert (s' = s1) as -> by congruence.
    destruct (decide (s1 ∈ news)) as [Hin|Hout].
    + destruct (Hnew _ Hin) as (? & ? & ->). eauto.
    + rewrite (Hold _ Hout), Hcf. eauto.
  - destruct (IH (Deque.append qd s1) (<[s1 := Some x]> cf) Hsub')
      as (qd' & cf' & news & Hrun & Hq & Hnew & Hold & Hcl & Hsz).
    assert (s1 ∉ news) as Hs1n.
    { intros Hin. destruct (Hnew _ Hin) as (Hnone & _).
      by rewrite lookup_insert_eq in Hnone. }
    exists qd', cf', (s1 :: news). split_and!.
    + done.
    + rewrite Hq, deque_append, <- app_assoc. done.
    + intros s Hs. apply elem_of_cons in Hs as [->|Hs].
      * split_and!; [done|done|]. rewrite (Hold _ Hs1n).
        apply lookup_insert_eq.
      * destruct (Hnew _ Hs) as (Hnone & Hmove & Hsome).
        split_and!; [|done|done].
        destruct (decide (s1 = s)) as [->|Hne]; [done|].
        by rewrite lookup_insert_ne in Hnone.
    + intros s Hs. apply not_elem_of_cons in Hs as [Hne Hs].
      rewrite (Hold _ Hs). by apply lookup_insert_ne.
    + intros m' s' Hm' Hs'. apply elem_of_cons in Hm' as [->|Hm']; [|eauto].
      assert (s' = s1) as -> by congruence.
      rewrite (Hold _ Hs1n), lookup_insert_eq. eauto.
    + rewrite Hsz, map_size_insert_None by done. simpl. lia.
Qed.

Lemma bfs_inv_init start goal :
  valid start → bfs_inv start goal (bfs_init start).
Proof.
  intros Hv. exists (λ _, 0), 0, [start], []. split; simpl.
  - by rewrite deque_of_list.
  - by repeat constructor.
  - constructor.
  - apply lookup_singleton_eq.
  - intros n o Hn. apply lookup_singleton_Some in Hn as [<- <-]. done.
  - intros s [o Hs]. apply lookup_singleton_Some in Hs as [<- <-].
    split_and!; [done| |rewrite map_size_singleton; lia].
    split; [apply reach_O|lia].
  - intros s Hs. apply list_elem_of_singleton in Hs as ->.
    rewrite lookup_singleton_eq. eauto.
  - intros s [o Hs] Hn. apply lookup_singleton_Some in Hs as [<- <-].
    destruct Hn. by left.
  - intros s k Hr Hk. assert (k = 0) as -> by lia.
    apply reach_inv_O in Hr as <-. rewrite lookup_singleton_eq. eauto.
  - by rewrite map_size_singleton.
Qed.

(** When the states of depth [d] are used up, the queue holds the states
    of depth [S d]. *)
Lemma bfs_inv_level start goal st dm d B :
  bfs_inv_at start goal st dm d [] B →
  bfs_inv_at start goal st dm (S d) B [].
Proof.
  intros [Hq HA HB Hst Hpred Hdist Hqd Hcl Hcomp Hcnt].
  simpl in *. split; rewrite ?app_nil_r; try done.
  intros s k Hr Hk. destruct (decide (k ≤ d)) as [|Hgt]; [eauto|].
  assert (k = S d) as -> by lia.
  apply reach_inv_S in Hr as (p & Hp & Hm).
  assert (is_Some (bfs_came_from st !! p)) as Hpin by eauto.
  destruct (Hdist _ Hpin) as (_ & [_ Hmin] & _).
  pose proof (Hmin _ Hp) as Hle.
  assert (p ∉ B) as HpB.
  { intros Hin. rewrite Forall_forall in HB. specialize (HB _ Hin). lia. }
  destruct (Hcl _ Hpin HpB) as [_ Hall]. eauto.
Qed.

Lemma move_via_swap x blank ms s' :
  index 0 x = Some blank → MOVES !! blank = Some ms → move x s' →
  ∃ m, m ∈ ms ∧ swap x blank m = Ok s'.
Proof.
  intros Hb Hms Hmv. apply move_swap in Hmv as (b & ms' & m & Hb' & Hms' & Hm & Hs).
  assert (b = blank) as -> by congruence.
  assert (ms' = ms) as -> by congruence. eauto.
Qed.

(** Expanding a state that is not the goal keeps the invariant. *)
Lemma bfs_expand start goal st dm d x A B q1 fuel :
  bfs_inv_at start goal st dm d (x :: A) B →
  Deque.popleft (bfs_queue st) = Some (x, q1) →
  x ≠ goal →
  ∃ st', bfs_step fuel goal st = Ok (inl st') ∧ bfs_inv start goal st' ∧
         bfs_expanded st' = (bfs_expanded st + 1)%N.
Proof.
  intros [Hq HA HB Hst Hpred Hdist Hqd Hcl Hcomp Hcnt] Hpop Hng.
  destruct st as [qd cf e]. simpl in *.
  apply deque_popleft_Some in Hpop as Hq1. rewrite Hq in Hq1.
  injection Hq1 as Hq1. symmetry in Hq1.
  assert (is_Some (cf !! x)) as Hx by (apply Hqd; left).
  destruct (Hdist _ Hx) as (Hvx & [Hrx Hminx] & Hdx).
  apply Forall_cons in HA as [Hdmx HA].
  destruct (valid_index _ Hvx) as (blank & Hblank & Hb9).
  destruct (MOVES_is_Some _ Hb9) as [ms Hms].
  destruct (bfs_for_spec x blank ms ms q1 cf Hvx Hblank Hms)
    as (qd' & cf' & news & Hrun & Hq' & Hnew & Hold & Hclx & Hsz); [done|].
  unfold bfs_step. simpl. rewrite Hpop.
  rewrite decide_False by done. rewrite Hblank. res_simpl.
  rewrite Hms. res_simpl. rewrite Hrun. res_simpl.
  eexists. split; [done|]. split; [|done].
  assert (∀ s, is_Some (cf !! s) → s ∉ news) as Hfresh.
  { intros s [o Hs] Hin. destruct (Hnew _ Hin) as (Hnone & _). congruence. }
  assert (∀ s, is_Some (cf !! s) → is_Some (cf' !! s)) as Hmono.
  { intros s Hs. rewrite Hold; [done|]. by apply Hfresh. }
  assert (∀ s, is_Some (cf' !! s) → s ∈ news ∨ is_Some (cf !! s)) as Hkeys.
  { intros s Hs. destruct (decide (s ∈ news)); [by left|right].
    by rewrite <- Hold. }
  set (dm' := λ s, if decide (s ∈ news) then S d else dm s).
  assert (∀ s, is_Some (cf !! s) → dm' s = dm s) as Hdm_old.
  { intros s Hs. unfold dm'. rewrite decide_False; [done|]. by apply Hfresh. }
  assert (∀ s, s ∈ news → dm' s = S d) as Hdm_new.
  { intros s Hs. unfold dm'. by rewrite decide_True. }
  exists dm', d, A, (B ++ news). split; simpl.
  - rewrite Hq', Hq1. by rewrite app_assoc.
  - rewrite Forall_forall in HA |- *. intros s Hs.
    rewrite Hdm_old; [by apply HA|]. apply Hqd. right. apply elem_of_app. by left.
  - apply Forall_app. split.
    + rewrite Forall_forall in HB |- *. intros s Hs.
      rewrite Hdm_old; [by apply HB|]. apply Hqd. right. apply elem_of_app. by right.
    + rewrite Forall_forall. done.
  - rewrite Hold; [done|]. apply Hfresh. eauto.
  - intros n o Hn. destruct (decide (n ∈ news)) as [Hin|Hout].
    + destruct (Hnew _ Hin) as (_ & Hmv & Hsome).
      rewrite Hsome in Hn. injection Hn as <-.
      split_and!; [by apply Hmono|done|].
      rewrite (Hdm_new _ Hin), (Hdm_old _ Hx). lia.
    + rewrite (Hold _ Hout) in Hn. pose proof (Hpred _ _ Hn) as Hp.
      destruct o as [p|]; [|done]. destruct Hp as (Hp & Hmv & Hrk).
      split_and!; [by apply Hmono|done|].
      rewrite (Hdm_old _ Hp), (Hdm_old n) by eauto. done.
  - intros s Hs. destruct (Hkeys _ Hs) as [Hin|Hs'].
    + destruct (Hnew _ Hin) as (Hnone & Hmv & _).
      rewrite (Hdm_new _ Hin). split_and!.
      * by eapply move_valid.
      * split.
        -- eapply reach_S; [|done]. by rewrite <- Hdmx.
        -- intros k Hk. destruct (decide (k ≤ d)) as [Hle|]; [|lia].
           destruct (Hcomp _ _ Hk Hle) as [o Ho]. congruence.
      * rewrite Hsz. destruct news; [by apply elem_of_nil in Hin|]. simpl. lia.
    + destruct (Hdist _ Hs') as (Hv & Hmin & Hlt).
      rewrite (Hdm_old _ Hs'). split_and!; [done|done|lia].
  - intros s Hs. rewrite app_assoc in Hs. apply elem_of_app in Hs as [Hs|Hs].
    + apply Hmono, Hqd. by right.
    + destruct (Hnew _ Hs) as (_ & _ & ->). eauto.
  - intros s Hs Hnq. rewrite app_assoc in Hnq.
    apply not_elem_of_app in Hnq as [Hnq Hnn].
    destruct (Hkeys _ Hs) as [|Hs']; [done|].
    destruct (decide (s = x)) as [->|Hne].
    + split; [done|]. intros s' Hmv.
      destruct (move_via_swap _ _ _ _ Hblank Hms Hmv) as (m & Hm & Hsw). eauto.
    + destruct (Hcl s Hs') as [Hsg Hall].
      { intros Hin. apply elem_of_cons in Hin as [|Hin]; [done|]. done. }
      split; [done|]. intros s' Hmv. apply Hmono. eauto.
  - intros s k Hr Hk. apply Hmono. eauto.
  - rewrite Hsz. rewrite <- Hcnt. rewrite !length_app. simpl. lia.
Qed.

(** The three ways an iteration of the loop can go. *)
Lemma bfs_step_cases fuel start goal st :
  bfs_inv start goal st →
  (bfs_step fuel goal st = Ok (inr (None, bfs_expanded st)) ∧
   ¬ reachable start goal)
  ∨ (∃ dm,
       bfs_step fuel goal st =
         (reconstruct_path fuel (bfs_came_from st) goal ≫= λ path,
          Ok (inr (Some path, (bfs_expanded st + 1)%N))) ∧
       pred_map_ok start (bfs_came_from st) dm ∧
       is_Some (bfs_came_from st !! goal) ∧
       min_moves start goal (dm goal) ∧ dm goal < n_states)
  ∨ (∃ st',
       bfs_step fuel goal st = Ok (inl st') ∧ bfs_inv start goal st' ∧
       bfs_expanded st' = (bfs_expanded st + 1)%N ∧
       N.to_nat (bfs_expanded st) < n_states).
Proof.
  intros (dm & d & A & B & Hinv).
  destruct (Deque.popleft (bfs_queue st)) as [[x q1]|] eqn:Hpop.
  - right.
    assert (∃ d' A' B', bfs_inv_at start goal st dm d' (x :: A') B')
      as (d' & A' & B' & Hinv').
    { pose proof (bi_queue _ _ _ _ _ _ _ Hinv) as Hq.
      rewrite (deque_popleft_Some _ _ _ Hpop) in Hq.
      destruct A as [|a A].
      - apply bfs_inv_level in Hinv. simpl in Hq. subst B. eauto.
      - simpl in Hq. injection Hq as <- _. eauto. }
    clear Hinv.
    assert (size (bfs_came_from st) ≤ n_states) as Hsize.
    { apply valid_keys_size. intros s Hs.
      by destruct (bi_dist _ _ _ _ _ _ _ Hinv' _ Hs). }
    pose proof (bi_count _ _ _ _ _ _ _ Hinv') as Hcnt. simpl in Hcnt.
    destruct (decide (x = goal)) as [->|Hne].
    + left. exists dm.
      assert (is_Some (bfs_came_from st !! goal)) as Hg.
      { apply (bi_queued _ _ _ _ _ _ _ Hinv'). by left. }
      destruct (bi_dist _ _ _ _ _ _ _ Hinv' _ Hg) as (_ & Hmin & Hlt).
      split_and!; [|by destruct Hinv'|done|done|lia].
      unfold bfs_step. rewrite Hpop. by rewrite decide_True.
    + right.
      destruct (bfs_expand _ _ _ _ _ _ _ _ _ fuel Hinv' Hpop Hne)
        as (st' & Hstep & Hinv'' & He).
      exists st'. split_and!; [done|done|done|lia].
  - left. split.
    { unfold bfs_step. by rewrite Hpop. }
    pose proof (bi_queue _ _ _ _ _ _ _ Hinv) as Hq.
    rewrite (deque_popleft_None _ Hpop) in Hq.
    assert (∀ n s, reach n start s → is_Some (bfs_came_from st !! s)) as Hall.
    { intros n s Hr. induction Hr as [|n a b c Hab IH Hbc].
      - rewrite (bi_start _ _ _ _ _ _ _ Hinv). eauto.
      - specialize (IH Hinv).
        destruct (bi_closed _ _ _ _ _ _ _ Hinv b IH) as [_ Hcl]; [|eauto].
        rewrite <- Hq. apply not_elem_of_nil. }
    intros [n Hr]. specialize (Hall _ _ Hr).
    destruct (bi_closed _ _ _ _ _ _ _ Hinv goal Hall) as [Hne _]; [|done].
    rewrite <- Hq. apply not_elem_of_nil.
Qed.

Lemma path_length_min start goal dm cf fuel path :
  pred_map_ok start cf dm → is_Some (cf !! goal) →
  min_moves start goal (dm goal) →
  reconstruct_path fuel cf goal = Ok path →
  path_from_to path start goal ∧ length path = S (dm goal).
Proof.
  intros Hpred Hg [_ Hmin] Hrec.
  destruct (reconstruct_path_sound _ _ _ _ _ _ Hpred Hg Hrec) as [Hp Hlen].
  split; [done|]. pose proof (Hmin _ (is_path_reach _ _ _ Hp)).
  destruct Hp as [Hhd _]. destruct path; [done|]. simpl in *. lia.
Qed.

(** What [bfs_loop] returns, whenever it returns. *)
Lemma bfs_loop_sound start goal fuel st r n :
  bfs_inv start goal st → bfs_loop fuel goal st = Ok (r, n) →
  match r with
  | Some path =>
      path_from_to path start goal ∧
      ∃ k, length path = S k ∧ min_moves start goal k
  | None => ¬ reachable start goal
  end.
Proof.
  revert st. induction fuel as [|fuel IH]; intros st Hinv; [done|].
  simpl. destruct (bfs_step_cases fuel start goal st Hinv)
    as [[-> Hnr]|[(dm & -> & Hpred & Hg & Hmin & _)|(st' & -> & Hinv' & _)]].
  - res_simpl. by intros [= <- <-].
  - destruct (reconstruct_path fuel (bfs_came_from st) goal) as [path| |] eqn:E;
      res_simpl; [|done|done].
    intros [= <- <-].
    destruct (path_length_min _ _ _ _ _ _ Hpred Hg Hmin E) as [Hp Hlen].
    eauto.
  - res_simpl. by apply IH.
Qed.

(** [bfs_loop] returns when given enough fuel. *)
Lemma bfs_loop_terminates start goal fuel st :
  bfs_inv start goal st →
  (n_states - N.to_nat (bfs_expanded st)) + n_states < fuel →
  ∃ r n, bfs_loop fuel goal st = Ok (r, n).
Proof.
  revert st. induction fuel as [|fuel IH]; intros st Hinv Hfuel; [lia|].
  simpl. destruct (bfs_step_cases fuel start goal st Hinv)
    as [[-> Hnr]|[(dm & -> & Hpred & Hg & Hmin & Hlt)|(st' & -> & Hinv' & He & Hlt)]].
  - res_simpl. eauto.
  - destruct (reconstruct_path_terminates start (bfs_came_from st) dm fuel goal)
      as [path ->]; [done|done|lia|]. res_simpl. eauto.
  - res_simpl. apply IH; [done|]. rewrite He. lia.
Qed.


(** * The priority queue *)

Lemma tuple_compare_antisym a b :
  tuple_compare b a = CompOpp (tuple_compare a b).
Proof.
  revert b. induction a as [|x a IH]; intros [|y b]; simpl; try done.
  rewrite (Nat.compare_antisym x y).
  destruct (x ?= y); simpl; [apply IH|done|done].
Qed.

Lemma tuple_compare_Eq a b : tuple_compare a b = Eq → a = b.
Proof.
  revert b. induction a as [|x a IH]; intros [|y b]; simpl; try done.
  destruct (x ?= y) eqn:E; try done.
  apply Nat.compare_eq in E as ->. intros H. by rewrite (IH _ H).
Qed.

Lemma tuple_compare_refl a : tuple_compare a a = Eq.
Proof. induction a as [|x a IH]; simpl; [done|]. by rewrite Nat.compare_refl. Qed.

Lemma tuple_compare_trans a b c :
  tuple_compare a b ≠ Gt → tuple_compare b c ≠ Gt → tuple_compare a c ≠ Gt.
Proof.
  revert b c. induction a as [|x a IH]; intros [|y b] [|z c]; simpl; try done.
  destruct (x ?= y) eqn:Exy; destruct (y ?= z) eqn:Eyz; try done.
  - apply Nat.compare_eq in Exy as ->. rewrite Eyz. apply IH.
  - apply Nat.compare_eq in Exy as ->. by rewrite Eyz.
  - apply Nat.compare_eq in Eyz as <-. by rewrite Exy.
  - apply Nat.compare_lt_iff in Exy, Eyz.
    assert (x < z) as H by lia. apply Nat.compare_lt_iff in H. by rewrite H.
Qed.

Lemma entry_leb_fst e1 e2 : entry_leb e1 e2 = true → e1.1 ≤ e2.1.
Proof.
  unfold entry_leb. destruct (e1.1 ?= e2.1) eqn:E; try done.
  - apply Nat.compare_eq in E. lia.
  - apply Nat.compare_lt_iff in E. lia.
Qed.

Lemma entry_leb_total e1 e2 : entry_leb e1 e2 = false → entry_leb e2 e1 = true.
Proof.
  unfold entry_leb. rewrite (Nat.compare_antisym e1.1 e2.1).
  rewrite (tuple_compare_antisym e1.2 e2.2).
  destruct (e1.1 ?= e2.1); simpl; try done.
  by destruct (tuple_compare e1.2 e2.2).
Qed.

Lemma entry_leb_trans e1 e2 e3 :
  entry_leb e1 e2 = true → entry_leb e2 e3 = true → entry_leb e1 e3 = true.
Proof.
  unfold entry_leb.
  destruct (e1.1 ?= e2.1) eqn:E12; destruct (e2.1 ?= e3.1) eqn:E23; try done.
  - apply Nat.compare_eq in E12, E23.
    assert ((e1.1 ?= e3.1) = Eq) as -> by (apply Nat.compare_eq_iff; lia).
    pose proof (tuple_compare_trans e1.2 e2.2 e3.2).
    destruct (tuple_compare e1.2 e2.2); destruct (tuple_compare e2.2 e3.2);
      destruct (tuple_compare e1.2 e3.2); naive_solver.
  - apply Nat.compare_eq in E12. apply Nat.compare_lt_iff in E23.
    assert ((e1.1 ?= e3.1) = Lt) as -> by (apply Nat.compare_lt_iff; lia). done.
  - apply Nat.compare_eq in E23. apply Nat.compare_lt_iff in E12.
    assert ((e1.1 ?= e3.1) = Lt) as -> by (apply Nat.compare_lt_iff; lia). done.
  - apply Nat.compare_lt_iff in E12, E23.
    assert ((e1.1 ?= e3.1) = Lt) as -> by (apply Nat.compare_lt_iff; lia). done.
Qed.

(** Two items that compare equal are the same item: the least item of a
    heap is unique. *)
Lemma entry_leb_antisym e1 e2 :
  entry_leb e1 e2 = true → entry_leb e2 e1 = true → e1 = e2.
Proof.
  unfold entry_leb. rewrite (Nat.compare_antisym e1.1 e2.1).
  rewrite (tuple_compare_antisym e1.2 e2.2).
  destruct e1 as [f1 s1], e2 as [f2 s2]. simpl.
  destruct (f1 ?= f2) eqn:E; simpl; try done.
  apply Nat.compare_eq in E as ->.
  destruct (tuple_compare s1 s2) eqn:E'; simpl; try done.
  by apply tuple_compare_Eq in E' as ->.
Qed.

Lemma items_make e a b :
  Heapq.items (Heapq.make e a b) ≡ₚ e :: Heapq.items a ++ Heapq.items b.
Proof.
  unfold Heapq.make. destruct (Heapq.rank b <=? Heapq.rank a); simpl; [done|].
  f_equiv. apply Permutation_app_comm.
Qed.

Lemma merge_Node_Node rka ea la ra rkb eb lb rb :
  Heapq.merge (Heapq.Node rka ea la ra) (Heapq.Node rkb eb lb rb) =
  if entry_leb ea eb
  then Heapq.make ea la (Heapq.merge ra (Heapq.Node rkb eb lb rb))
  else Heapq.make eb lb (Heapq.merge (Heapq.Node rka ea la ra) rb).
Proof. reflexivity. Qed.

Lemma items_merge a b :
  Heapq.items (Heapq.merge a b) ≡ₚ Heapq.items a ++ Heapq.items b.
Proof.
  revert b. induction a as [|rka ea la IHl ra IHr]; intros b; [done|].
  induction b as [|rkb eb lb IHlb rb IHrb]; [by rewrite app_nil_r|].
  rewrite merge_Node_Node.
  destruct (entry_leb ea eb).
  - rewrite items_make, IHr. simpl. solve_Permutation.
  - rewrite items_make, IHrb. simpl. solve_Permutation.
Qed.

Lemma ordered_make e a b :
  (∀ e', e' ∈ Heapq.items a ++ Heapq.items b → entry_leb e e' = true) →
  heap_ordered a → heap_ordered b → heap_ordered (Heapq.make e a b).
Proof.
  intros He Ha Hb. unfold Heapq.make.
  destruct (Heapq.rank b <=? Heapq.rank a); simpl; split_and!; try done.
  intros e' He'. apply He. rewrite elem_of_app in He' |- *. tauto.
Qed.

Lemma ordered_merge a b :
  heap_ordered a → heap_ordered b → heap_ordered (Heapq.merge a b).
Proof.
  revert b. induction a as [|rka ea la IHl ra IHr]; intros b; [done|].
  induction b as [|rkb eb lb IHlb rb IHrb]; [done|].
  intros Ha Hb. rewrite merge_Node_Node.
  destruct Ha as (Hea & Hla & Hra). destruct Hb as (Heb & Hlb & Hrb).
  destruct (entry_leb ea eb) eqn:E.
  - apply ordered_make; [|done|].
    + intros e' He'. apply elem_of_app in He' as [He'|He'].
      { apply Hea, elem_of_app. by left. }
      rewrite items_merge in He'. apply elem_of_app in He' as [He'|He'].
      { apply Hea, elem_of_app. by right. }
      simpl in He'. apply elem_of_cons in He' as [->|He']; [done|].
      eapply entry_leb_trans; [exact E|]. by apply Heb.
    + apply IHr; [done|]. simpl. done.
  - apply entry_leb_total in E. apply ordered_make; [|done|].
    + intros e' He'. apply elem_of_app in He' as [He'|He'].
      { apply Heb, elem_of_app. by left. }
      rewrite items_merge in He'. apply elem_of_app in He' as [He'|He'].
      * simpl in He'. apply elem_of_cons in He' as [->|He']; [done|].
        eapply entry_leb_trans; [exact E|]. by apply Hea.
      * apply Heb, elem_of_app. by right.
    + apply IHrb; [|done]. simpl. done.
Qed.

Lemma items_heappush h e : Heapq.items (Heapq.heappush h e) ≡ₚ e :: Heapq.items h.
Proof. unfold Heapq.heappush. by rewrite items_merge. Qed.

Lemma ordered_heappush h e : heap_ordered h → heap_ordered (Heapq.heappush h e).
Proof.
  intros H. unfold Heapq.heappush. apply ordered_merge; [|done].
  simpl. split_and!; try done. intros e' He'. by apply elem_of_nil in He'.
Qed.

Lemma heappop_None h : Heapq.heappop h = None → Heapq.items h = [].
Proof. by destruct h. Qed.

Lemma heappop_Some h e h' :
  heap_ordered h → Heapq.heappop h = Some (e, h') →
  Heapq.items h ≡ₚ e :: Heapq.items h' ∧ heap_ordered h' ∧
  ∀ e', e' ∈ Heapq.items h' → entry_leb e e' = true.
Proof.
  destruct h as [|rk e0 l r]; [done|]. simpl.
  intros (He & Hl & Hr) [= <- <-]. split_and!.
  - by rewrite items_merge.
  - by apply ordered_merge.
  - intros e'. rewrite items_merge. apply He.
Qed.


(** * The misplaced-tile heuristic *)

Lemma h_sum_Ok idxs s goal :
  (∀ i, i ∈ idxs → i < length s ∧ i < length goal) →
  h_sum idxs s goal = Ok (sum_list (misplaced_at s goal <$> idxs)).
Proof.
  induction idxs as [|i idxs IH]; intros H; [done|].
  destruct (H i) as [Hs Hg]; [left|].
  destruct (lookup_lt_is_Some_2 _ _ Hs) as [si Hsi].
  destruct (lookup_lt_is_Some_2 _ _ Hg) as [gi Hgi].
  simpl. unfold getitem. rewrite Hsi, Hgi. res_simpl.
  rewrite IH by (intros j Hj; apply H; by right). res_simpl.
  unfold misplaced_at at 2. by rewrite Hsi, Hgi.
Qed.

Lemma h_misplaced_Ok s goal :
  valid s → valid goal →
  h_misplaced s goal = Ok (sum_list (misplaced_at s goal <$> seq 0 9)).
Proof.
  intros Hs Hg. apply h_sum_Ok. intros i Hi. apply elem_of_seq in Hi.
  rewrite (valid_length _ Hs), (valid_length _ Hg). lia.
Qed.

Lemma misplaced_at_le_1 s goal i : misplaced_at s goal i ≤ 1.
Proof.
  unfold misplaced_at. destruct (s !! i), (goal !! i); try lia.
  destruct (_ && _); lia.
Qed.

Lemma misplaced_at_blank s goal i : s !! i = Some 0 → misplaced_at s goal i = 0.
Proof.
  intros H. unfold misplaced_at. rewrite H. destruct (goal !! i); [|done].
  simpl. by rewrite andb_false_r.
Qed.

Lemma misplaced_at_same s i : misplaced_at s s i = 0.
Proof.
  unfold misplaced_at. destruct (s !! i); [|done]. by rewrite Nat.eqb_refl.
Qed.

(** Two sums that agree except at [b], where the first is 0, and at [m],
    where the first is at most 1, differ by at most 1. *)
Lemma sum_list_two_points (f g : nat → nat) b m idxs :
  NoDup idxs →
  (∀ i, i ∈ idxs → i ≠ b → i ≠ m → f i = g i) →
  f b = 0 → f m ≤ 1 →
  sum_list (f <$> idxs) ≤ sum_list (g <$> idxs) + 1.
Proof.
  intros Hnd Hsame Hb Hm.
  assert (sum_list (f <$> idxs) ≤
          sum_list (g <$> idxs) + (if decide (m ∈ idxs) then 1 else 0)) as H.
  { induction Hnd as [|i idxs Hi Hnd IH]; [simpl; lia|].
    csimpl. specialize (IH (λ j Hj, Hsame j (list_elem_of_further _ _ _ Hj))).
    destruct (decide (i = m)) as [->|Him].
    - rewrite decide_True by left. rewrite decide_False in IH by done. lia.
    - assert (f i ≤ g i) as Hle.
      { destruct (decide (i = b)) as [->|Hib]; [lia|].
        rewrite (Hsame i); [done|left|done|done]. }
      destruct (decide (m ∈ idxs)).
      + rewrite decide_True by (by right). lia.
      + rewrite decide_False; [lia|]. intros Hin.
        apply elem_of_cons in Hin as [|]; done. }
  destruct (decide (m ∈ idxs)); lia.
Qed.

(** One move changes the heuristic by at most one, in either direction. *)
Lemma h_move s s' goal :
  move s s' →
  sum_list (misplaced_at s goal <$> seq 0 9)
    ≤ sum_list (misplaced_at s' goal <$> seq 0 9) + 1.
Proof.
  intros (b & ms & m & t & Hb & Hms & Hm & Ht & ->).
  apply index_Some in Hb as [Hb _].
  destruct (MOVES_lookup _ _ Hms) as [Hb9 Hall].
  destruct (Hall m Hm) as (Hm9 & Hne & _).
  apply (sum_list_two_points _ _ b m); [apply NoDup_seq| | |].
  - intros i _ Hib Him. unfold misplaced_at.
    by rewrite !list_lookup_insert_ne by done.
  - by apply misplaced_at_blank.
  - apply misplaced_at_le_1.
Qed.

Lemma h_goal_zero goal idxs :
  sum_list (misplaced_at goal goal <$> idxs) = 0.
Proof.
  induction idxs as [|i l IH]; [done|].
  csimpl. by rewrite misplaced_at_same.
Qed.

(** The heuristic never exceeds the number of moves to the goal. *)
Lemma h_admissible n s goal :
  reach n s goal →
  sum_list (misplaced_at s goal <$> seq 0 9) ≤ n.
Proof.
  intros Hr.
  assert (∀ g, reach n s g →
          sum_list (misplaced_at s goal <$> seq 0 9)
          ≤ n + sum_list (misplaced_at g goal <$> seq 0 9)) as H.
  { clear Hr. intros g Hr. induction Hr as [|n a b c Hab IH Hbc]; [lia|].
    pose proof (h_move b c goal Hbc). lia. }
  specialize (H goal Hr). rewrite h_goal_zero in H. lia.
Qed.


(** * A* search *)

Lemma gsum_insert_None (g : gmap state nat) s v :
  g !! s = None → gsum (<[s := v]> g) = v + gsum g.
Proof.
  intros H. unfold gsum. apply (map_fold_insert_L (λ _ v acc, v + acc)); [|done].
  intros. lia.
Qed.

Lemma gsum_insert_Some (g : gmap state nat) s v old :
  g !! s = Some old → gsum (<[s := v]> g) + old = v + gsum g.
Proof.
  intros H. rewrite <- (insert_delete_id g s old H) at 2.
  rewrite <- (insert_delete_eq g s v).
  rewrite !gsum_insert_None by apply lookup_delete_eq. lia.
Qed.

Lemma potential_arith u sz gs v :
  S sz ≤ u → v ≤ sz → (v + gs) + (u - S sz) * u + 1 ≤ gs + (u - sz) * u.
Proof.
  intros H1 H2. replace (u - sz) with (S (u - S sz)) by lia.
  rewrite Nat.mul_succ_l. lia.
Qed.

Lemma potential_insert_None (g : gmap state nat) s v :
  g !! s = None → valid s → (∀ k, is_Some (g !! k) → valid k) →
  v ≤ size g →
  potential (<[s := v]> g) + 1 ≤ potential g.
Proof.
  intros Hs Hv Hkeys Hle. unfold potential.
  assert (size (<[s := v]> g) ≤ n_states) as Hsz.
  { apply valid_keys_size. intros k [o Hk].
    destruct (decide (s = k)) as [<-|Hne]; [done|].
    rewrite lookup_insert_ne in Hk by done. eauto. }
  rewrite gsum_insert_None by done.
  rewrite map_size_insert_None in Hsz |- * by done.
  generalize dependent n_states. intros u Hu.
  by apply potential_arith.
Qed.

Lemma potential_insert_Some (g : gmap state nat) s v old :
  g !! s = Some old → v < old →
  potential (<[s := v]> g) + 1 ≤ potential g.
Proof.
  intros Hs Hlt. unfold potential.
  pose proof (gsum_insert_Some g s v old Hs) as Hsum.
  rewrite map_size_insert_Some by eauto.
  generalize dependent n_states. intros u.
  generalize ((u - size g) * u). intros k. lia.
Qed.

(** The effect of the [for m in MOVES[blank]] loop of A*: [upd] lists the
    neighbours whose cost was set or lowered. *)
Lemma astar_for_spec (goal x : state) (blank : nat) (ms0 ms : list nat) (gx : nat)
    (open_list : Heapq.t) (cf : gmap state (option state))
    (g : gmap state nat) :
  valid goal → valid x → index 0 x = Some blank →
  MOVES !! blank = Some ms0 → (∀ m, m ∈ ms → m ∈ ms0) →
  g !! x = Some gx → heap_ordered open_list →
  (∀ s gs, g !! s = Some gs → valid s ∧ gs < size g) →
  ∃ open' cf' g' upd,
    astar_for goal x blank ms open_list cf g = Ok (open', cf', g') ∧
    heap_ordered open' ∧
    Heapq.items open' ≡ₚ
      Heapq.items open_list ++ ((λ n, (S gx + hval goal n, n)) <$> upd) ∧
    (∀ n, n ∈ upd →
       move x n ∧ g' !! n = Some (S gx) ∧ cf' !! n = Some (Some x) ∧
       ∀ old, g !! n = Some old → S gx < old) ∧
    (∀ s, s ∉ upd → g' !! s = g !! s ∧ cf' !! s = cf !! s) ∧
    (∀ m s', m ∈ ms → swap x blank m = Ok s' →
       ∃ gs', g' !! s' = Some gs' ∧ gs' ≤ S gx) ∧
    (∀ s gs, g' !! s = Some gs → valid s ∧ gs < size g') ∧
    size g ≤ size g' ∧
    potential g' + length upd ≤ potential g.
Proof.
  intros Hvg Hvx Hb Hms0. revert open_list cf g.
  induction ms as [|m ms IH]; intros open_list cf g Hsub Hgx Hord Hkeys.
  { exists open_list, cf, g, []. simpl. rewrite app_nil_r.
    split_and!; try done.
    - intros n Hn. by apply elem_of_nil in Hn.
    - intros m s' Hm. by apply elem_of_nil in Hm.
    - lia. }
  destruct (valid_swap x blank ms0 m Hvx Hb Hms0) as (n & Hsw & Hmv & Hvn).
  { apply Hsub. left. }
  assert (∀ m, m ∈ ms → m ∈ ms0) as Hsub'.
  { intros m' Hm'. apply Hsub. by right. }
  pose proof (move_ne _ _ Hvx Hmv) as Hxn.
  destruct (Hkeys _ _ Hgx) as [_ Hgxlt].
  cbn [astar_for]. rewrite Hsw. res_simpl. rewrite Hgx. res_simpl.
  rewrite Nat.add_1_r.
  assert (∀ open1 cf1 g1,
    heap_ordered open1 →
    Heapq.items open1 ≡ₚ (S gx + hval goal n, n) :: Heapq.items open_list →
    g1 = <[n := S gx]> g → cf1 = <[n := Some x]> cf →
    (∀ old, g !! n = Some old → S gx < old) →
    (∀ s gs, g1 !! s = Some gs → valid s ∧ gs < size g1) →
    size g ≤ size g1 →
    potential g1 + 1 ≤ potential g →
    ∃ open' cf' g' upd,
      astar_for goal x blank ms open1 cf1 g1 = Ok (open', cf', g') ∧
      heap_ordered open' ∧
      Heapq.items open' ≡ₚ
        Heapq.items open_list ++ ((λ n, (S gx + hval goal n, n)) <$> upd) ∧
      (∀ n, n ∈ upd →
         move x n ∧ g' !! n = Some (S gx) ∧ cf' !! n = Some (Some x) ∧
         ∀ old, g !! n = Some old → S gx < old) ∧
      (∀ s, s ∉ upd → g' !! s = g !! s ∧ cf' !! s = cf !! s) ∧
      (∀ m0 s', m0 ∈ m :: ms → swap x blank m0 = Ok s' →
         ∃ gs', g' !! s' = Some gs' ∧ gs' ≤ S gx) ∧
      (∀ s gs, g' !! s = Some gs → valid s ∧ gs < size g') ∧
      size g ≤ size g' ∧
      potential g' + length upd ≤ potential g) as Hupdate.
  { intros open1 cf1 g1 Hord1 Hitems1 -> -> Hold Hkeys1 Hsz1 Hpot1.
    destruct (IH open1 (<[n := Some x]> cf) (<[n := S gx]> g) Hsub')
      as (open' & cf' & g' & upd & Hrun & Hord' & Hitems' & Hupd & Hrest
          & Hcl & Hkeys' & Hsz' & Hpot'); [|done|done|].
    { by rewrite lookup_insert_ne. }
    assert (n ∉ upd) as Hnupd.
    { intros Hin. destruct (Hupd _ Hin) as (_ & _ & _ & Hlt).
      specialize (Hlt (S gx)). rewrite lookup_insert_eq in Hlt.
      specialize (Hlt eq_refl). lia. }
    destruct (Hrest _ Hnupd) as [Hgn Hcfn].
    rewrite lookup_insert_eq in Hgn. rewrite lookup_insert_eq in Hcfn.
    exists open', cf', g', (n :: upd). split_and!.
    - done.
    - done.
    - rewrite Hitems', Hitems1. csimpl. solve_Permutation.
    - intros n' Hn'. apply elem_of_cons in Hn' as [->|Hn'].
      + done.
      + destruct (Hupd _ Hn') as (Hm' & Hg' & Hcf' & Hlt').
        split_and!; try done. intros old Hold'. apply Hlt'.
        destruct (decide (n = n')) as [<-|Hne].
        * specialize (Hold _ Hold'). rewrite lookup_insert_eq.
          specialize (Hlt' (S gx)). rewrite lookup_insert_eq in Hlt'.
          specialize (Hlt' eq_refl). lia.
        * by rewrite lookup_insert_ne.
    - intros s Hs. apply not_elem_of_cons in Hs as [Hne Hs].
      destruct (Hrest _ Hs) as [-> ->].
      by rewrite !lookup_insert_ne.
    - intros m0 s' Hm0 Hs'. apply elem_of_cons in Hm0 as [->|Hm0]; [|eauto].
      assert (s' = n) as -> by congruence. eauto.
    - done.
    - lia.
    - simpl. lia. }
  destruct (g !! n) as [gn|] eqn:Hgn.
  - destruct (Nat.ltb_spec (S gx) gn) as [Hlt|Hge].
    + rewrite (h_misplaced_Ok n goal Hvn Hvg). res_simpl.
      fold (hval goal n).
      apply (Hupdate _ _ _ (ordered_heappush _ _ Hord) (items_heappush _ _)
               eq_refl eq_refl).
      * intros old [= <-]. done.
      * intros s gs Hs. rewrite map_size_insert_Some by eauto.
        destruct (decide (n = s)) as [<-|Hne].
        -- rewrite lookup_insert_eq in Hs. injection Hs as <-.
           split; [done|]. destruct (Hkeys _ _ Hgn). lia.
        -- rewrite lookup_insert_ne in Hs by done. eauto.
      * rewrite map_size_insert_Some by eauto. done.
      * by eapply potential_insert_Some.
    + destruct (IH open_list cf g Hsub' Hgx Hord Hkeys)
        as (open' & cf' & g' & upd & Hrun & Hord' & Hitems' & Hupd & Hrest
            & Hcl & Hkeys' & Hsz' & Hpot').
      exists open', cf', g', upd. split_and!; try done.
      intros m0 s' Hm0 Hs'. apply elem_of_cons in Hm0 as [->|Hm0]; [|eauto].
      assert (s' = n) as -> by congruence.
      destruct (decide (n ∈ upd)) as [Hin|Hout].
      * destruct (Hupd _ Hin) as (_ & -> & _). eauto.
      * destruct (Hrest _ Hout) as [-> _]. rewrite Hgn. eexists. split; [done|lia].
  - rewrite (h_misplaced_Ok n goal Hvn Hvg). res_simpl.
    fold (hval goal n).
    apply (Hupdate _ _ _ (ordered_heappush _ _ Hord) (items_heappush _ _)
             eq_refl eq_refl).
    + intros old. done.
    + intros s gs Hs. rewrite map_size_insert_None by done.
      destruct (decide (n = s)) as [<-|Hne].
      * rewrite lookup_insert_eq in Hs. injection Hs as <-.
        split; [done|]. lia.
      * rewrite lookup_insert_ne in Hs by done.
        destruct (Hkeys _ _ Hs). split; [done|lia].
    + rewrite map_size_insert_None by done. lia.
    + apply potential_insert_None; try done.
      intros k [o Hk]. by destruct (Hkeys _ _ Hk).
Qed.

Lemma astar_inv_init start goal :
  valid start → astar_inv start goal (astar_init start).
Proof.
  intros Hv.
  assert (∀ e, e ∈ Heapq.items (Heapq.heappush Heapq.empty (0, start)) ↔
               e = (0, start)) as Hitems.
  { intros e. rewrite items_heappush. simpl. apply list_elem_of_singleton. }
  split; unfold astar_init; cbn [as_open as_came_from as_g_score as_expanded].
  - by apply ordered_heappush.
  - apply lookup_singleton_eq.
  - apply lookup_singleton_eq.
  - intros n o Hn. apply lookup_singleton_Some in Hn as [<- <-]. done.
  - intros s. rewrite !lookup_singleton_is_Some. done.
  - intros s gs Hs. apply lookup_singleton_Some in Hs as [<- <-].
    split; [done|]. rewrite map_size_singleton. lia.
  - intros s [gs Hs]. apply lookup_singleton_Some in Hs as [<- <-].
    exists 0. apply reach_O.
  - intros f s Hin. apply Hitems in Hin as [= -> ->].
    exists 0. by rewrite lookup_singleton_eq.
  - intros s gs Hs. apply lookup_singleton_Some in Hs as [<- <-].
    left. exists 0. split; [by apply Hitems|lia].
Qed.

(** Along a path from [start] to [goal], either some entry of the heap has
    a priority no greater than the length of the path, or the cost
    recorded for the state reached so far is no greater than the number of
    moves made so far. *)
Lemma astar_frontier start goal st j i s :
  astar_inv start goal st → reach j start s → reach i s goal →
  (∃ f s', (f, s') ∈ Heapq.items (as_open st) ∧ f ≤ j + i)
  ∨ (∃ gs, as_g_score st !! s = Some gs ∧ gs ≤ j).
Proof.
  intros Hinv Hj. revert i. induction Hj as [|j a b c Hab IH Hbc]; intros i Hi.
  - right. exists 0. split; [apply (ai_start_g _ _ _ Hinv)|lia].
  - destruct (IH Hinv (S i)) as [(f & s' & Hin & Hle)|(gb & Hgb & Hle)].
    { by eapply reach_cons. }
    + left. exists f, s'. split; [done|lia].
    + destruct (ai_closed _ _ _ Hinv _ _ Hgb) as [(f & Hin & Hf)|[_ Hcl]].
      * left. exists f, b. split; [done|].
        pose proof (h_admissible (S i) b goal) as Hadm.
        unfold hval in Hf. specialize (Hadm (reach_cons _ _ _ _ Hbc Hi)). lia.
      * destruct (Hcl _ Hbc) as (gc & Hgc & Hle'). right. exists gc.
        split; [done|lia].
Qed.

(** Expanding a state that is not the goal keeps the invariant and
    decreases the measure. *)
Lemma astar_expand start goal st f x open1 fuel :
  valid goal → astar_inv start goal st →
  Heapq.heappop (as_open st) = Some ((f, x), open1) → x ≠ goal →
  ∃ st', astar_step fuel goal st = Ok (inl st') ∧ astar_inv start goal st' ∧
         as_expanded st' = (as_expanded st + 1)%N ∧
         astar_measure st' < astar_measure st.
Proof.
  intros Hvg [Hheap Hscf Hsg Hpred Hdom Hkeys Hreach Hopen Hclosed] Hpop Hng.
  destruct st as [op cf g e]. cbn [as_open as_came_from as_g_score as_expanded] in *.
  destruct (heappop_Some _ _ _ Hheap Hpop) as (Hperm & Hord1 & Hmin).
  destruct (Hopen f x) as (gx & Hgx & Hgxf).
  { rewrite Hperm. left. }
  destruct (Hkeys _ _ Hgx) as [Hvx Hgxlt].
  destruct (valid_index _ Hvx) as (blank & Hblank & Hb9).
  destruct (MOVES_is_Some _ Hb9) as [ms Hms].
  destruct (astar_for_spec goal x blank ms ms gx open1 cf g Hvg Hvx Hblank Hms)
    as (open' & cf' & g' & upd & Hrun & Hord' & Hitems' & Hupd & Hrest
        & Hcl & Hkeys' & Hsz' & Hpot'); [done|done|done|done|].
  unfold astar_step. cbn [as_open as_came_from as_g_score as_expanded].
  rewrite Hpop. rewrite decide_False by done. rewrite Hblank. res_simpl.
  rewrite Hms. res_simpl. rewrite Hrun. res_simpl.
  eexists. split; [done|].
  assert (∀ s gs, g !! s = Some gs → ∃ gs', g' !! s = Some gs' ∧ gs' ≤ gs)
    as Hmono.
  { intros s gs Hs. destruct (decide (s ∈ upd)) as [Hin|Hout].
    - destruct (Hupd _ Hin) as (_ & Hg' & _ & Hlt). exists (S gx).
      split; [done|]. specialize (Hlt _ Hs). lia.
    - destruct (Hrest _ Hout) as [Hg' _]. exists gs. by rewrite Hg'. }
  assert (x ∉ upd) as Hxupd.
  { intros Hin. destruct (Hupd _ Hin) as (Hmv & _). by eapply move_ne. }
  assert (start ∉ upd) as Hsupd.
  { intros Hin. destruct (Hupd _ Hin) as (_ & _ & _ & Hlt).
    specialize (Hlt _ Hsg). lia. }
  assert (∀ s, is_Some (cf !! s) → is_Some (cf' !! s)) as Hcfmono.
  { intros s Hs. destruct (decide (s ∈ upd)) as [Hin|Hout].
    - destruct (Hupd _ Hin) as (_ & _ & -> & _). eauto.
    - destruct (Hrest _ Hout) as [_ ->]. done. }
  split; [|split; [done|]].
  - split; cbn [as_open as_came_from as_g_score as_expanded].
    + done.
    + destruct (Hrest _ Hsupd) as [_ ->]. done.
    + destruct (Hrest _ Hsupd) as [-> _]. done.
    + intros n o Hn. destruct (decide (n ∈ upd)) as [Hin|Hout].
      * destruct (Hupd _ Hin) as (Hmv & Hgn & Hcfn & _).
        rewrite Hcfn in Hn. injection Hn as <-. split_and!.
        -- apply Hcfmono, Hdom. eauto.
        -- done.
        -- unfold g_of. rewrite Hgn. destruct (Hrest _ Hxupd) as [-> _].
           rewrite Hgx. simpl. lia.
      * destruct (Hrest _ Hout) as [Hgn Hcfn]. rewrite Hcfn in Hn.
        pose proof (Hpred _ _ Hn) as Hp. destruct o as [p|]; [|done].
        destruct Hp as (Hp & Hmv & Hrk). split_and!; [by apply Hcfmono|done|].
        apply Hdom in Hp as [gp Hgp].
        destruct (Hmono _ _ Hgp) as (gp' & Hgp' & Hle).
        unfold g_of in *. rewrite Hgn, Hgp'. rewrite Hgp in Hrk. simpl in *. lia.
    + intros s. destruct (decide (s ∈ upd)) as [Hin|Hout].
      * destruct (Hupd _ Hin) as (_ & -> & -> & _). split; eauto.
      * destruct (Hrest _ Hout) as [-> ->]. apply Hdom.
    + done.
    + intros s [gs Hs]. destruct (decide (s ∈ upd)) as [Hin|Hout].
      * destruct (Hupd _ Hin) as (Hmv & _).
        destruct (Hreach x) as [k Hk]; [eauto|]. exists (S k).
        by eapply reach_S.
      * destruct (Hrest _ Hout) as [Hg' _]. apply Hreach. rewrite <- Hg'. eauto.
    + intros f' s Hin. rewrite Hitems' in Hin.
      apply elem_of_app in Hin as [Hin|Hin].
      * destruct (Hopen f' s) as (gs & Hgs & Hle).
        { rewrite Hperm. by right. }
        destruct (Hmono _ _ Hgs) as (gs' & Hgs' & Hle'). exists gs'.
        split; [done|lia].
      * apply list_elem_of_fmap in Hin as (n & [= -> ->] & Hn).
        destruct (Hupd _ Hn) as (_ & Hgn & _). exists (S gx). split; [done|lia].
    + intros s gs Hs. destruct (decide (s ∈ upd)) as [Hin|Hout].
      * left. destruct (Hupd _ Hin) as (_ & Hgn & _).
        assert (gs = S gx) as -> by congruence.
        exists (S gx + hval goal s). split; [|lia].
        rewrite Hitems'. apply elem_of_app. right.
        apply list_elem_of_fmap. eauto.
      * destruct (Hrest _ Hout) as [Hg' _]. rewrite Hg' in Hs.
        destruct (decide (s = x)) as [->|Hne].
        -- right. split; [done|]. intros s' Hmv.
           assert (gs = gx) as -> by congruence.
           destruct (move_via_swap _ _ _ _ Hblank Hms Hmv) as (m & Hm & Hsw).
           eauto.
        -- destruct (Hclosed _ _ Hs) as [(f0 & Hin0 & Hf0)|[Hsg' Hall]].
           ++ left. exists f0. split; [|done].
              rewrite Hitems'. apply elem_of_app. left.
              rewrite Hperm in Hin0. apply elem_of_cons in Hin0 as [[= _ ->]|]; done.
           ++ right. split; [done|]. intros s' Hmv.
              destruct (Hall _ Hmv) as (gs' & Hgs' & Hle).
              destruct (Hmono _ _ Hgs') as (gs'' & Hgs'' & Hle'). exists gs''.
              split; [done|lia].
  - unfold astar_measure. cbn [as_open as_g_score].
    rewrite Hitems', Hperm, length_app, length_fmap. simpl.
    generalize dependent (potential g'). generalize (potential g).
    intros. lia.
Qed.

(** The three ways an iteration of the loop can go. *)
Lemma astar_step_cases fuel start goal st :
  valid goal → astar_inv start goal st →
  (astar_step fuel goal st = Ok (inr (None, as_expanded st)) ∧
   ¬ reachable start goal)
  ∨ (astar_step fuel goal st =
       (reconstruct_path fuel (as_came_from st) goal ≫= λ path,
        Ok (inr (Some path, (as_expanded st + 1)%N))) ∧
     is_Some (as_came_from st !! goal) ∧
     (∀ k, reach k start goal → g_of (as_g_score st) goal ≤ k) ∧
     g_of (as_g_score st) goal < n_states)
  ∨ (∃ st',
       astar_step fuel goal st = Ok (inl st') ∧ astar_inv start goal st' ∧
       as_expanded st' = (as_expanded st + 1)%N ∧
       astar_measure st' < astar_measure st).
Proof.
  intros Hvg Hinv.
  destruct (Heapq.heappop (as_open st)) as [[[f x] open1]|] eqn:Hpop.
  - right. destruct (decide (x = goal)) as [->|Hne].
    + left.
      destruct (heappop_Some _ _ _ (ai_heap _ _ _ Hinv) Hpop)
        as (Hperm & Hord1 & Hmin).
      destruct (ai_open _ _ _ Hinv f goal) as (gg & Hgg & Hle).
      { rewrite Hperm. left. }
      split_and!.
      * unfold astar_step. rewrite Hpop. by rewrite decide_True.
      * apply (ai_dom _ _ _ Hinv). eauto.
      * intros k Hk. unfold g_of. rewrite Hgg. simpl.
        destruct (astar_frontier _ _ _ k 0 goal Hinv Hk (reach_O goal))
          as [(f' & s' & Hin & Hf')|(gs & Hgs & Hgs')].
        -- rewrite Hperm in Hin. apply elem_of_cons in Hin as [[= -> ->]|Hin].
           ++ lia.
           ++ apply Hmin, entry_leb_fst in Hin. simpl in Hin. lia.
        -- assert (gs = gg) as -> by congruence. done.
      * unfold g_of. rewrite Hgg. cbn [default from_option id].
        destruct (ai_keys _ _ _ Hinv _ _ Hgg) as [_ Hlt].
        assert (size (as_g_score st) ≤ n_states); [|lia].
        apply valid_keys_size. intros s [gs Hs].
        by destruct (ai_keys _ _ _ Hinv _ _ Hs).
    + right. by eapply astar_expand.
  - left. split.
    { unfold astar_step. by rewrite Hpop. }
    apply heappop_None in Hpop.
    assert (∀ s gs, as_g_score st !! s = Some gs →
              s ≠ goal ∧ ∀ s', move s s' → is_Some (as_g_score st !! s'))
      as Hcl.
    { intros s gs Hs.
      destruct (ai_closed _ _ _ Hinv _ _ Hs) as [(f & Hin & _)|[Hne Hall]].
      - rewrite Hpop in Hin. by apply elem_of_nil in Hin.
      - split; [done|]. intros s' Hmv.
        destruct (Hall _ Hmv) as (gs' & -> & _). eauto. }
    assert (∀ n s, reach n start s → is_Some (as_g_score st !! s)) as Hall.
    { intros n s Hr. induction Hr as [|n a b c Hab IH Hbc].
      - rewrite (ai_start_g _ _ _ Hinv). eauto.
      - destruct (IH Hinv) as [gb Hgb].
        destruct (Hcl _ _ Hgb) as [_ Hnext]. eauto. }
    intros [n Hr]. destruct (Hall _ _ Hr) as [gg Hgg].
    by destruct (Hcl _ _ Hgg).
Qed.

Lemma astar_path_min start goal st fuel path :
  astar_inv start goal st → is_Some (as_came_from st !! goal) →
  (∀ k, reach k start goal → g_of (as_g_score st) goal ≤ k) →
  reconstruct_path fuel (as_came_from st) goal = Ok path →
  path_from_to path start goal ∧
  ∃ k, length path = S k ∧ min_moves start goal k.
Proof.
  intros Hinv Hg Hmin Hrec.
  destruct (reconstruct_path_sound _ _ _ _ _ _ (ai_pred _ _ _ Hinv) Hg Hrec)
    as [Hp Hlen].
  split; [done|]. pose proof (is_path_reach _ _ _ Hp) as Hr.
  destruct Hp as [Hhd _]. destruct path as [|s path]; [done|].
  exists (length path). split; [done|]. simpl in Hr.
  rewrite Nat.sub_0_r in Hr. split; [done|].
  intros k Hk. specialize (Hmin _ Hk). simpl in Hlen. lia.
Qed.

(** What [astar_loop] returns, whenever it returns. *)
Lemma astar_loop_sound start goal fuel st r n :
  valid goal → astar_inv start goal st →
  astar_loop fuel goal st = Ok (r, n) →
  match r with
  | Some path =>
      path_from_to path start goal ∧
      ∃ k, length path = S k ∧ min_moves start goal k
  | None => ¬ reachable start goal
  end.
Proof.
  intros Hvg. revert st. induction fuel as [|fuel IH]; intros st Hinv; [done|].
  simpl. destruct (astar_step_cases fuel start goal st Hvg Hinv)
    as [[-> Hnr]|[(-> & Hg & Hmin & _)|(st' & -> & Hinv' & _)]].
  - res_simpl. by intros [= <- <-].
  - destruct (reconstruct_path fuel (as_came_from st) goal) as [path| |] eqn:E;
      res_simpl; [|done|done].
    intros [= <- <-]. by eapply astar_path_min.
  - res_simpl. by apply IH.
Qed.

(** [astar_loop] returns when given enough fuel. *)
Lemma astar_loop_terminates start goal fuel st :
  valid goal → astar_inv start goal st →
  astar_measure st + n_states < fuel →
  ∃ r n, astar_loop fuel goal st = Ok (r, n).
Proof.
  intros Hvg. revert st. induction fuel as [|fuel IH]; intros st Hinv Hfuel; [lia|].
  simpl. destruct (astar_step_cases fuel start goal st Hvg Hinv)
    as [[-> Hnr]|[(-> & Hg & Hmin & Hlt)|(st' & -> & Hinv' & He & Hlt)]].
  - res_simpl. eauto.
  - destruct (reconstruct_path_terminates start (as_came_from st)
                (g_of (as_g_score st)) fuel goal) as [path ->];
      [apply (ai_pred _ _ _ Hinv)|done|lia|]. res_simpl. eauto.
  - res_simpl. apply IH; [done|lia].
Qed.


(** * Properties of the searches *)

Lemma is_path_lookup p i s s' :
  is_path p → p !! i = Some s → p !! S i = Some s' → move s s'.
Proof.
  revert i. induction p as [|a p IH]; intros i Hp; [done|].
  destruct p as [|b p]; [by destruct i|]. destruct Hp as [Hm Hp].
  destruct i as [|i]; simpl.
  - by intros [= <-] [= <-].
  - intros H1 H2. by apply (IH i).
Qed.

Lemma path_reachable p a b : path_from_to p a b → reachable a b.
Proof. intros H. eexists. by apply is_path_reach. Qed.

Lemma min_moves_unique a b n k : min_moves a b n → min_moves a b k → n = k.
Proof. intros [H1 H2] [H3 H4]. specialize (H2 _ H3). specialize (H4 _ H1). lia. Qed.

(** [bfs] returns with enough fuel, and what it returns is right. *)
Lemma bfs_total start goal :
  valid start →
  ∀ fuel, 2 * n_states < fuel →
    ∃ r n, bfs fuel start goal = Ok (r, n) ∧
      match r with
      | Some path =>
          path_from_to path start goal ∧
          ∃ k, length path = S k ∧ min_moves start goal k
      | None => ¬ reachable start goal
      end.
Proof.
  intros Hv fuel Hfuel. pose proof (bfs_inv_init start goal Hv) as Hinv.
  destruct (bfs_loop_terminates start goal fuel _ Hinv) as (r & n & Hrun).
  { unfold bfs_init. cbn [bfs_expanded]. change (N.to_nat 0) with 0. lia. }
  exists r, n. split; [done|]. by eapply bfs_loop_sound.
Qed.

Lemma astar_measure_init start :
  astar_measure (astar_init start) ≤ n_states * n_states + 1.
Proof.
  unfold astar_measure, potential. cbn [astar_init as_g_score as_open].
  rewrite items_heappush, map_size_singleton. cbn [Heapq.items Heapq.empty length].
  unfold gsum. rewrite map_fold_singleton.
  generalize n_states. intros u. nia.
Qed.

(** [a_star_misplaced] returns with enough fuel, and what it returns is
    right. *)
Lemma astar_total start goal :
  valid start → valid goal →
  ∀ fuel, n_states * n_states + n_states + 1 < fuel →
    ∃ r n, a_star_misplaced fuel start goal = Ok (r, n) ∧
      match r with
      | Some path =>
          path_from_to path start goal ∧
          ∃ k, length path = S k ∧ min_moves start goal k
      | None => ¬ reachable start goal
      end.
Proof.
  intros Hv Hvg fuel Hfuel. pose proof (astar_inv_init start goal Hv) as Hinv.
  destruct (astar_loop_terminates start goal fuel _ Hvg Hinv) as (r & n & Hrun).
  { pose proof (astar_measure_init start). lia. }
  exists r, n. split; [done|]. by eapply astar_loop_sound.
Qed.

(** ** Checking concrete states *)

Lemma valid_check s : bool_decide (s ≡ₚ seq 0 9) = true → valid s.
Proof. intros H. by apply bool_decide_eq_true in H. Qed.

Lemma move_check s blank ms m tile :
  index 0 s = Some blank → MOVES !! blank = Some ms →
  bool_decide (m ∈ ms) = true → s !! m = Some tile →
  move s (<[m := 0]> (<[blank := tile]> s)).
Proof.
  intros Hb Hms Hm Ht. apply bool_decide_eq_true in Hm.
  exists blank, ms, m, tile. done.
Qed.

Lemma valid_canonical_goal : valid canonical_goal.
Proof. by apply valid_check. Qed.

Lemma reach_two_moves : reach 2 [1; 2; 3; 4; 5; 6; 0; 7; 8] canonical_goal.
Proof.
  apply (reach_S 1 _ [1; 2; 3; 4; 5; 6; 7; 0; 8]).
  - apply reach_1.
    exact (move_check [1; 2; 3; 4; 5; 6; 0; 7; 8] 6 [3; 7] 7 7
             eq_refl eq_refl eq_refl eq_refl).
  - exact (move_check [1; 2; 3; 4; 5; 6; 7; 0; 8] 7 [4; 6; 8] 8 8
             eq_refl eq_refl eq_refl eq_refl).
Qed.

(** ** The claims *)

(** C1. For valid states [start] and [goal] with [goal] reachable from
    [start], [bfs] (given enough fuel) returns a path from [start] to
    [goal] whose number of edges, [length path - 1], is the minimum number
    of moves from [start] to [goal]. *)
Theorem bfs_returns_shortest_path start goal :
  valid start → valid goal → reachable start goal →
  ∃ fuel0, ∀ fuel, fuel0 ≤ fuel →
    ∃ path expanded,
      bfs fuel start goal = Ok (Some path, expanded) ∧
      path_from_to path start goal ∧
      min_moves start goal (length path - 1).
Proof.
  intros Hv _ Hr. exists (S (2 * n_states)). intros fuel Hfuel.
  destruct (bfs_total start goal Hv fuel) as (r & n & Hrun & Hpost); [lia|].
  destruct r as [path|]; [|done].
  destruct Hpost as (Hp & k & Hlen & Hmin).
  exists path, n. split_and!; [done|done|].
  rewrite Hlen. simpl. by rewrite Nat.sub_0_r.
Qed.

Lemma bfs_returns_shortest_path_witness :
  ∃ fuel0, ∀ fuel, fuel0 ≤ fuel →
    ∃ path expanded,
      bfs fuel [1; 2; 3; 4; 5; 6; 0; 7; 8] canonical_goal
        = Ok (Some path, expanded) ∧
      path_from_to path [1; 2; 3; 4; 5; 6; 0; 7; 8] canonical_goal ∧
      min_moves [1; 2; 3; 4; 5; 6; 0; 7; 8] canonical_goal (length path - 1).
Proof.
  apply (bfs_returns_shortest_path [1; 2; 3; 4; 5; 6; 0; 7; 8] canonical_goal).
  - apply valid_check. reflexivity.
  - apply valid_check. reflexivity.
  - exists 2. exact reach_two_moves.
Defined.

(** C2. For valid states [start] and [goal], both [bfs] and
    [a_star_misplaced] terminate (they return a result once the fuel is
    large enough), and each returns the not-found signal ([None] as path)
    if and only if [goal] is not reachable from [start]. *)
Theorem searches_terminate start goal :
  valid start → valid goal →
  ∃ fuel0, ∀ fuel, fuel0 ≤ fuel →
    (∃ r n, bfs fuel start goal = Ok (r, n) ∧
            (r = None ↔ ¬ reachable start goal)) ∧
    (∃ r n, a_star_misplaced fuel start goal = Ok (r, n) ∧
            (r = None ↔ ¬ reachable start goal)).
Proof.
  intros Hv Hvg. exists (n_states * n_states + 2 * n_states + 2).
  intros fuel Hfuel. split.
  - destruct (bfs_total start goal Hv fuel) as (r & n & Hrun & Hpost); [lia|].
    exists r, n. split; [done|]. destruct r as [path|].
    + destruct Hpost as [Hp _]. split; [done|].
      intros Hnr. destruct Hnr. by eapply path_reachable.
    + done.
  - destruct (astar_total start goal Hv Hvg fuel) as (r & n & Hrun & Hpost);
      [lia|].
    exists r, n. split; [done|]. destruct r as [path|].
    + destruct Hpost as [Hp _]. split; [done|].
      intros Hnr. destruct Hnr. by eapply path_reachable.
    + done.
Qed.

Lemma searches_terminate_witness :
  ∃ fuel0, ∀ fuel, fuel0 ≤ fuel →
    (∃ r n, bfs fuel [1; 2; 3; 4; 5; 6; 0; 7; 8] canonical_goal = Ok (r, n) ∧
            (r = None ↔ ¬ reachable [1; 2; 3; 4; 5; 6; 0; 7; 8] canonical_goal)) ∧
    (∃ r n, a_star_misplaced fuel [1; 2; 3; 4; 5; 6; 0; 7; 8] canonical_goal
              = Ok (r, n) ∧
            (r = None ↔ ¬ reachable [1; 2; 3; 4; 5; 6; 0; 7; 8] canonical_goal)).
Proof.
  apply (searches_terminate [1; 2; 3; 4; 5; 6; 0; 7; 8] canonical_goal).
  - apply valid_check. reflexivity.
  - apply valid_check. reflexivity.
Defined.

(** C3. For valid states [start] and [goal] with [goal] reachable from
    [start], the path returned by [bfs] and the path returned by
    [a_star_misplaced] have the same length, and both are optimal. *)
Theorem bfs_astar_same_length start goal :
  valid start → valid goal → reachable start goal →
  ∃ fuel0, ∀ fuel, fuel0 ≤ fuel →
    ∃ path_b n_b path_a n_a,
      bfs fuel start goal = Ok (Some path_b, n_b) ∧
      a_star_misplaced fuel start goal = Ok (Some path_a, n_a) ∧
      length path_b = length path_a ∧
      min_moves start goal (length path_b - 1) ∧
      min_moves start goal (length path_a - 1).
Proof.
  intros Hv Hvg Hr. exists (n_states * n_states + 2 * n_states + 2).
  intros fuel Hfuel.
  destruct (bfs_total start goal Hv fuel) as (rb & nb & Hrunb & Hpostb); [lia|].
  destruct (astar_total start goal Hv Hvg fuel) as (ra & na & Hruna & Hposta);
    [lia|].
  destruct rb as [pb|]; [|done]. destruct ra as [pa|]; [|done].
  destruct Hpostb as (_ & kb & Hlb & Hmb). destruct Hposta as (_ & ka & Hla & Hma).
  exists pb, nb, pa, na. rewrite Hlb, Hla. simpl. rewrite !Nat.sub_0_r.
  split_and!; try done. f_equal. by eapply min_moves_unique.
Qed.

Lemma bfs_astar_same_length_witness :
  ∃ fuel0, ∀ fuel, fuel0 ≤ fuel →
    ∃ path_b n_b path_a n_a,
      bfs fuel [1; 2; 3; 4; 5; 6; 0; 7; 8] canonical_goal
        = Ok (Some path_b, n_b) ∧
      a_star_misplaced fuel [1; 2; 3; 4; 5; 6; 0; 7; 8] canonical_goal
        = Ok (Some path_a, n_a) ∧
      length path_b = length path_a ∧
      min_moves [1; 2; 3; 4; 5; 6; 0; 7; 8] canonical_goal (length path_b - 1) ∧
      min_moves [1; 2; 3; 4; 5; 6; 0; 7; 8] canonical_goal (length path_a - 1).
Proof.
  apply (bfs_astar_same_length [1; 2; 3; 4; 5; 6; 0; 7; 8] canonical_goal).
  - apply valid_check. reflexivity.
  - apply valid_check. reflexivity.
  - exists 2. exact reach_two_moves.
Defined.

(** C4. Whenever [bfs] or [a_star_misplaced] returns a path, the path
    starts with [start] and ends with [goal], and every state of it is
    obtained from the state before it by one [move]: the blank is
    exchanged with the tile at a position that [MOVES] lists for the
    position of the blank. *)
Theorem returned_path_is_valid fuel start goal path expanded :
  valid start → valid goal →
  bfs fuel start goal = Ok (Some path, expanded) ∨
  a_star_misplaced fuel start goal = Ok (Some path, expanded) →
  head path = Some start ∧ last path = Some goal ∧
  ∀ i s s', path !! i = Some s → path !! S i = Some s' → move s s'.
Proof.
  intros Hv Hvg Hrun.
  assert (path_from_to path start goal) as (Hhd & Hlast & Hp).
  { destruct Hrun as [Hrun|Hrun].
    - pose proof (bfs_loop_sound start goal fuel _ _ _
                    (bfs_inv_init start goal Hv) Hrun) as [H _]. done.
    - pose proof (astar_loop_sound start goal fuel _ _ _ Hvg
                    (astar_inv_init start goal Hv) Hrun) as [H _]. done. }
  split_and!; [done|done|]. intros i s s'. by apply is_path_lookup.
Qed.

Lemma returned_path_is_valid_witness :
  head [[1; 2; 3; 4; 5; 6; 0; 7; 8]; [1; 2; 3; 4; 5; 6; 7; 0; 8];
        [1; 2; 3; 4; 5; 6; 7; 8; 0]] = Some [1; 2; 3; 4; 5; 6; 0; 7; 8] ∧
  last [[1; 2; 3; 4; 5; 6; 0; 7; 8]; [1; 2; 3; 4; 5; 6; 7; 0; 8];
        [1; 2; 3; 4; 5; 6; 7; 8; 0]] = Some canonical_goal ∧
  ∀ i s s',
    [[1; 2; 3; 4; 5; 6; 0; 7; 8]; [1; 2; 3; 4; 5; 6; 7; 0; 8];
     [1; 2; 3; 4; 5; 6; 7; 8; 0]] !! i = Some s →
    [[1; 2; 3; 4; 5; 6; 0; 7; 8]; [1; 2; 3; 4; 5; 6; 7; 0; 8];
     [1; 2; 3; 4; 5; 6; 7; 8; 0]] !! S i = Some s' →
    move s s'.
Proof.
  apply (returned_path_is_valid 10 [1; 2; 3; 4; 5; 6; 0; 7; 8] canonical_goal
           _ 3%N).
  - apply valid_check. reflexivity.
  - apply valid_check. reflexivity.
  - right. vm_compute. reflexivity.
Defined.

(** C6. For valid states [s] and [goal], [h_misplaced s goal] returns a
    number that is at most the number of moves of any sequence of moves
    from [s] to [goal], hence at most the minimum number of moves. *)
Theorem h_misplaced_admissible s goal :
  valid s → valid goal →
  ∃ h, h_misplaced s goal = Ok h ∧
       (∀ n, reach n s goal → h ≤ n) ∧
       (∀ n, min_moves s goal n → h ≤ n).
Proof.
  intros Hs Hg. eexists. split; [by apply h_misplaced_Ok|].
  split.
  - intros n Hn. by apply h_admissible.
  - intros n [Hn _]. by apply h_admissible.
Qed.

Lemma h_misplaced_admissible_witness :
  ∃ h, h_misplaced [1; 2; 3; 4; 5; 6; 0; 7; 8] canonical_goal = Ok h ∧
       (∀ n, reach n [1; 2; 3; 4; 5; 6; 0; 7; 8] canonical_goal → h ≤ n) ∧
       (∀ n, min_moves [1; 2; 3; 4; 5; 6; 0; 7; 8] canonical_goal n → h ≤ n).
Proof.
  apply (h_misplaced_admissible [1; 2; 3; 4; 5; 6; 0; 7; 8] canonical_goal).
  - apply valid_check. reflexivity.
  - apply valid_check. reflexivity.
Defined.

(** C7. When [start] equals [goal], both searches return the path made
    of that one state, and an expanded count of 1 (for every state [s],
    valid or not, and any fuel of at least 2). *)
Theorem start_equals_goal s fuel :
  bfs (S (S fuel)) s s = Ok (Some [s], 1%N) ∧
  a_star_misplaced (S (S fuel)) s s = Ok (Some [s], 1%N).
Proof.
  split.
  - unfold bfs, bfs_init. cbn [bfs_loop]. unfold bfs_step.
    cbn [bfs_queue bfs_came_from bfs_expanded Deque.popleft Deque.of_list
         Deque.front].
    rewrite decide_True by done. unfold reconstruct_path.
    cbn [reconstruct_loop]. rewrite lookup_singleton_eq. done.
  - unfold a_star_misplaced, astar_init. cbn [astar_loop]. unfold astar_step.
    cbn [as_open as_came_from as_expanded Heapq.heappop Heapq.heappush
         Heapq.merge Heapq.empty].
    rewrite decide_True by done. unfold reconstruct_path.
    cbn [reconstruct_loop]. rewrite lookup_singleton_eq. done.
Qed.

(** ** Path reconstruction on the maps that the searches build *)

Lemma bfs_run_inv start goal st :
  valid start → bfs_run goal (bfs_init start) st → bfs_inv start goal st.
Proof.
  intros Hv Hrun. remember (bfs_init start) as st0 eqn:E.
  induction Hrun as [st|st st' st'' fuel Hrun IH Hstep].
  - subst. by apply bfs_inv_init.
  - specialize (IH E).
    destruct (bfs_step_cases fuel start goal st' IH)
      as [[Hs _]|[(dm & Hs & _)|(st3 & Hs & Hinv & _)]].
    + congruence.
    + rewrite Hs in Hstep.
      destruct (reconstruct_path fuel (bfs_came_from st') goal); done.
    + congruence.
Qed.

Lemma astar_run_inv start goal st :
  valid start → valid goal →
  astar_run goal (astar_init start) st → astar_inv start goal st.
Proof.
  intros Hv Hvg Hrun. remember (astar_init start) as st0 eqn:E.
  induction Hrun as [st|st st' st'' fuel Hrun IH Hstep].
  - subst. by apply astar_inv_init.
  - specialize (IH E).
    destruct (astar_step_cases fuel start goal st' Hvg IH)
      as [[Hs _]|[(Hs & _)|(st3 & Hs & Hinv & _)]].
    + congruence.
    + rewrite Hs in Hstep.
      destruct (reconstruct_path fuel (as_came_from st') goal); done.
    + congruence.
Qed.

Lemma reconstruct_loop_no_raise fuel cf cur acc e :
  reconstruct_loop fuel cf cur acc ≠ Raise e.
Proof.
  revert cur acc. induction fuel as [|fuel IH]; intros cur acc; [done|].
  simpl. destruct (cf !! cur) as [[p|]|]; [apply IH|done|done].
Qed.

Lemma reconstruct_path_total start cf rk cur :
  pred_map_ok start cf rk → is_Some (cf !! cur) →
  ∀ fuel, rk cur < fuel →
    ∃ path, reconstruct_path fuel cf cur = Ok path ∧
            path_from_to path start cur.
Proof.
  intros Hok Hcur fuel Hfuel.
  destruct (reconstruct_path_terminates _ _ _ _ _ Hok Hcur Hfuel) as [path Hp].
  exists path. split; [done|].
  by destruct (reconstruct_path_sound _ _ _ _ _ _ Hok Hcur Hp).
Qed.

(** C9, as the code has it. [reconstruct_path] never raises; when [cur]
    is not a key of the predecessor map it returns the one-state sequence
    [[cur]]; and on the predecessor map of a search whose loop has just
    taken [goal] from its frontier, it returns a path from [start] to
    [goal]. *)
Theorem reconstruct_path_never_fails start goal :
  valid start → valid goal →
  (∀ fuel cf cur e, reconstruct_path fuel cf cur ≠ Raise e) ∧
  (∀ fuel cf cur, cf !! cur = None →
     reconstruct_path (S fuel) cf cur = Ok [cur]) ∧
  (∀ st q,
     bfs_run goal (bfs_init start) st →
     Deque.popleft (bfs_queue st) = Some (goal, q) →
     ∃ fuel0, ∀ fuel, fuel0 ≤ fuel →
       ∃ path, reconstruct_path fuel (bfs_came_from st) goal = Ok path ∧
               path_from_to path start goal) ∧
  (∀ st f h,
     astar_run goal (astar_init start) st →
     Heapq.heappop (as_open st) = Some ((f, goal), h) →
     ∃ fuel0, ∀ fuel, fuel0 ≤ fuel →
       ∃ path, reconstruct_path fuel (as_came_from st) goal = Ok path ∧
               path_from_to path start goal).
Proof.
  intros Hv Hvg. split_and!.
  - intros fuel cf cur e. unfold reconstruct_path.
    pose proof (reconstruct_loop_no_raise fuel cf cur [cur] e).
    by destruct (reconstruct_loop fuel cf cur [cur]).
  - intros fuel cf cur Hcur. unfold reconstruct_path. simpl. by rewrite Hcur.
  - intros st q Hrun Hpop.
    destruct (bfs_run_inv _ _ _ Hv Hrun) as (dm & d & A & B & Hinv).
    assert (is_Some (bfs_came_from st !! goal)) as Hg.
    { apply (bi_queued _ _ _ _ _ _ _ Hinv).
      rewrite <- (bi_queue _ _ _ _ _ _ _ Hinv).
      rewrite (deque_popleft_Some _ _ _ Hpop). left. }
    exists (S (dm goal)). intros fuel Hfuel.
    apply (reconstruct_path_total start _ dm); [by destruct Hinv|done|lia].
  - intros st f h Hrun Hpop.
    pose proof (astar_run_inv _ _ _ Hv Hvg Hrun) as Hinv.
    destruct (heappop_Some _ _ _ (ai_heap _ _ _ Hinv) Hpop) as (Hperm & _).
    destruct (ai_open _ _ _ Hinv f goal) as (gg & Hgg & _).
    { rewrite Hperm. left. }
    exists (S (g_of (as_g_score st) goal)). intros fuel Hfuel.
    apply (reconstruct_path_total start _ (g_of (as_g_score st)));
      [by destruct Hinv| |lia].
    apply (ai_dom _ _ _ Hinv). eauto.
Qed.

Lemma reconstruct_path_never_fails_witness :
  (∀ fuel cf cur e, reconstruct_path fuel cf cur ≠ Raise e) ∧
  (∀ fuel cf cur, cf !! cur = None →
     reconstruct_path (S fuel) cf cur = Ok [cur]) ∧
  (∀ st q,
     bfs_run canonical_goal (bfs_init [1; 2; 3; 4; 5; 6; 0; 7; 8]) st →
     Deque.popleft (bfs_queue st) = Some (canonical_goal, q) →
     ∃ fuel0, ∀ fuel, fuel0 ≤ fuel →
       ∃ path,
         reconstruct_path fuel (bfs_came_from st) canonical_goal = Ok path ∧
         path_from_to path [1; 2; 3; 4; 5; 6; 0; 7; 8] canonical_goal) ∧
  (∀ st f h,
     astar_run canonical_goal (astar_init [1; 2; 3; 4; 5; 6; 0; 7; 8]) st →
     Heapq.heappop (as_open st) = Some ((f, canonical_goal), h) →
     ∃ fuel0, ∀ fuel, fuel0 ≤ fuel →
       ∃ path,
         reconstruct_path fuel (as_came_from st) canonical_goal = Ok path ∧
         path_from_to path [1; 2; 3; 4; 5; 6; 0; 7; 8] canonical_goal).
Proof.
  apply (reconstruct_path_never_fails [1; 2; 3; 4; 5; 6; 0; 7; 8] canonical_goal).
  - apply valid_check. reflexivity.
  - apply valid_check. reflexivity.
Defined.

(** The claim C9 as the specification words it fails: the canonical goal
    is not a key of the empty map, and reconstruction returns normally. *)
Lemma reconstruct_path_absent_key :
  (∅ : gmap state (option state)) !! canonical_goal = None ∧
  reconstruct_path 1 ∅ canonical_goal = Ok [canonical_goal].
Proof. split; reflexivity. Qed.

(** C10. The verdict of the solvability gate of the solve handler depends
    on the start state only: for every start state, any two goals (and
    any algorithm and fuel), the handler stops at the gate in both runs or
    in neither, and it stops exactly when [is_solvable start] is false. *)
Theorem solvability_gate_ignores_goal fuel1 fuel2 alg1 alg2 start goal1 goal2 :
  rejected (solve fuel1 alg1 start goal1)
    = rejected (solve fuel2 alg2 start goal2) ∧
  rejected (solve fuel1 alg1 start goal1) = negb (is_solvable start).
Proof.
  assert (∀ fuel alg goal,
            rejected (solve fuel alg start goal) = negb (is_solvable start))
    as H.
  { intros fuel alg goal. unfold solve.
    destruct (is_solvable start); [|done]. cbn [negb].
    destruct (match alg with
              | AStar => a_star_misplaced fuel start goal
              | BFS => bfs fuel start goal
              end) as [[[p|] n]| |]; done. }
  by rewrite !H.
Qed.


(** * The first concrete scenario *)

(** ** More fuel does not change a result *)

Lemma reconstruct_loop_fuel_mono fuel fuel' cf cur acc r :
  reconstruct_loop fuel cf cur acc = Ok r → fuel ≤ fuel' →
  reconstruct_loop fuel' cf cur acc = Ok r.
Proof.
  revert fuel' cur acc. induction fuel as [|fuel IH]; intros fuel' cur acc;
    [done|]. intros H Hle. destruct fuel' as [|fuel']; [lia|].
  simpl in *. destruct (cf !! cur) as [[p|]|]; [|done|done].
  apply IH; [done|lia].
Qed.

Lemma reconstruct_path_fuel_mono fuel fuel' cf cur r :
  reconstruct_path fuel cf cur = Ok r → fuel ≤ fuel' →
  reconstruct_path fuel' cf cur = Ok r.
Proof.
  unfold reconstruct_path. rewrite !bind_Ok.
  intros (p & Hp & Hr) Hle. exists p. split; [|done].
  by eapply reconstruct_loop_fuel_mono.
Qed.

Lemma astar_step_fuel_mono fuel fuel' goal st x :
  astar_step fuel goal st = Ok x → fuel ≤ fuel' →
  astar_step fuel' goal st = Ok x.
Proof.
  unfold astar_step.
  destruct (Heapq.heappop (as_open st)) as [[[f cur] h]|]; [|done].
  destruct (decide (cur = goal)); [|done].
  rewrite !bind_Ok. intros (p & Hp & Hr) Hle. exists p. split; [|done].
  by eapply reconstruct_path_fuel_mono.
Qed.

Lemma astar_loop_fuel_mono fuel fuel' goal st r :
  astar_loop fuel goal st = Ok r → fuel ≤ fuel' →
  astar_loop fuel' goal st = Ok r.
Proof.
  revert fuel' st. induction fuel as [|fuel IH]; intros fuel' st; [done|].
  intros H Hle. destruct fuel' as [|fuel']; [lia|].
  cbn [astar_loop] in *. apply bind_Ok in H as (x & Hx & Hr).
  rewrite (astar_step_fuel_mono fuel fuel' goal st x Hx) by lia. res_simpl.
  destruct x as [st'|out]; [|done]. apply IH; [done|lia].
Qed.

(** ** The expanded count of [bfs] is at least the number of iterations
    that do not return *)

Lemma bfs_step_inl fuel goal st st' :
  bfs_step fuel goal st = Ok (inl st') →
  bfs_expanded st' = (bfs_expanded st + 1)%N ∧
  ∀ fuel', bfs_step fuel' goal st = Ok (inl st').
Proof.
  unfold bfs_step.
  destruct (Deque.popleft (bfs_queue st)) as [[cur q]|]; [|done].
  destruct (decide (cur = goal)).
  - intros H. apply bind_Ok in H as (p & _ & [=]).
  - intros H. split; [|done].
    apply bind_Ok in H as (blank & _ & H). apply bind_Ok in H as (ms & _ & H).
    apply bind_Ok in H as ([q' cf'] & _ & [= <-]). done.
Qed.

Lemma bfs_step_inr fuel goal st r n :
  bfs_step fuel goal st = Ok (inr (r, n)) → (bfs_expanded st ≤ n)%N.
Proof.
  unfold bfs_step.
  destruct (Deque.popleft (bfs_queue st)) as [[cur q]|].
  - destruct (decide (cur = goal)).
    + intros H. apply bind_Ok in H as (p & _ & [= _ <-]). lia.
    + intros H. apply bind_Ok in H as (blank & _ & H).
      apply bind_Ok in H as (ms & _ & H).
      apply bind_Ok in H as ([q' cf'] & _ & [=]).
  - intros [= _ <-]. lia.
Qed.

Lemma bfs_loop_expanded fuel goal st r n :
  bfs_loop fuel goal st = Ok (r, n) → (bfs_expanded st ≤ n)%N.
Proof.
  revert st. induction fuel as [|fuel IH]; intros st; [done|].
  cbn [bfs_loop]. intros H. apply bind_Ok in H as (x & Hx & H).
  destruct x as [st'|[r' n']].
  - apply IH in H. apply bfs_step_inl in Hx as [He _]. lia.
  - injection H as -> ->. by eapply bfs_step_inr.
Qed.

Lemma bfs_iter_expanded k fuel goal st st' r n :
  bfs_iter k goal st = Some st' → bfs_loop fuel goal st = Ok (r, n) →
  (bfs_expanded st' ≤ n)%N.
Proof.
  revert fuel st. induction k as [|k IH]; intros fuel st.
  - intros [= <-]. apply bfs_loop_expanded.
  - cbn [bfs_iter]. destruct (bfs_step 0 goal st) as [[st1|]| |] eqn:E; try done.
    intros Hiter Hloop. destruct fuel as [|fuel]; [done|].
    cbn [bfs_loop] in Hloop. apply bfs_step_inl in E as [_ E].
    rewrite (E fuel) in Hloop. res_simpl. by eapply IH.
Qed.

(** ** The two runs *)

(** A* on the scenario: a path of 26 states, 20951 states expanded. *)
Lemma astar_scenario_run :
  ∃ path,
    a_star_misplaced scenario_fuel scenario_start canonical_goal
      = Ok (Some path, 20951%N) ∧
    length path = 26.
Proof. eexists. split; vm_compute; reflexivity. Qed.

(** The first 20951 iterations of [bfs] on the scenario do not return. *)
Lemma bfs_scenario_check :
  match bfs_iter 20951 canonical_goal (bfs_init scenario_start) with
  | Some st => bfs_expanded st
  | None => 0%N
  end = 20951%N.
Proof. vm_compute. reflexivity. Qed.

Lemma bfs_scenario_iter :
  ∃ st, bfs_iter 20951 canonical_goal (bfs_init scenario_start) = Some st ∧
        bfs_expanded st = 20951%N.
Proof.
  pose proof bfs_scenario_check as H.
  destruct (bfs_iter 20951 canonical_goal (bfs_init scenario_start))
    as [st|]; [eauto|done].
Qed.

Lemma valid_scenario_start : valid scenario_start.
Proof. apply valid_check. vm_compute. reflexivity. Qed.

(** C8. For [start = (1,8,7,0,3,5,2,4,6)] and the canonical goal: the
    start is solvable (its inversion count, 14, is even); [bfs] and
    [a_star_misplaced] return paths of the same length (26 states, that
    is 25 moves); and [a_star_misplaced] expands 20951 states, which is no
    more than [bfs] expands. *)
Theorem scenario_1 :
  is_solvable scenario_start = true ∧
  count_inversions scenario_start = 14 ∧
  ∃ fuel0, ∀ fuel, fuel0 ≤ fuel →
    ∃ path_b n_b path_a n_a,
      bfs fuel scenario_start canonical_goal = Ok (Some path_b, n_b) ∧
      a_star_misplaced fuel scenario_start canonical_goal
        = Ok (Some path_a, n_a) ∧
      length path_b = length path_a ∧ length path_a = 26 ∧
      n_a = 20951%N ∧ (n_a ≤ n_b)%N.
Proof.
  split; [reflexivity|]. split; [reflexivity|].
  destruct astar_scenario_run as (pa & Hrun_a & Hlen_a).
  destruct bfs_scenario_iter as (st & Hiter & Hst).
  exists (scenario_fuel + S (2 * n_states)). intros fuel Hfuel.
  destruct (bfs_total scenario_start canonical_goal valid_scenario_start fuel)
    as (rb & nb & Hrun_b & Hpost_b); [lia|].
  assert (scenario_fuel ≤ fuel) as Hle by lia.
  pose proof (astar_loop_fuel_mono _ _ _ _ _ Hrun_a Hle) as Hrun_a'.
  pose proof (astar_loop_sound scenario_start canonical_goal _ _ _ _
                valid_canonical_goal
                (astar_inv_init _ canonical_goal valid_scenario_start) Hrun_a)
    as (Hpa & ka & Hka & Hmin_a).
  pose proof (bfs_iter_expanded _ _ _ _ _ _ _ Hiter Hrun_b) as Hnb.
  rewrite Hst in Hnb.
  destruct rb as [pb|].
  - destruct Hpost_b as (_ & kb & Hkb & Hmin_b).
    exists pb, nb, pa, 20951%N.
    split; [exact Hrun_b|]. split; [exact Hrun_a'|].
    split; [|split; [exact Hlen_a|split; [reflexivity|exact Hnb]]].
    rewrite Hkb, Hka. f_equal. exact (min_moves_unique _ _ _ _ Hmin_b Hmin_a).
  - destruct Hpost_b. exact (path_reachable _ _ _ Hpa).
Qed.


(** * Solvability *)

(** ** A move keeps the parity of the number of inversions *)

Lemma count_greater_app x l1 l2 :
  count_greater x (l1 ++ l2) = count_greater x l1 + count_greater x l2.
Proof. induction l1 as [|y l1 IH]; simpl; [done|]. rewrite IH. lia. Qed.

Lemma parity_eq (a b j k : nat) : a + 2 * j = b + 2 * k → a mod 2 = b mod 2.
Proof.
  intros H. rewrite <- (Nat.Div0.mod_add a j 2), <- (Nat.Div0.mod_add b k 2).
  f_equal. lia.
Qed.

(** Moving a tile over two others changes the number of inversions by an
    even number. *)
Lemma inversions_rotate3 pre x y t post :
  t ≠ x → t ≠ y →
  inversions_of (pre ++ t :: x :: y :: post) mod 2
  = inversions_of (pre ++ x :: y :: t :: post) mod 2.
Proof.
  intros Hx Hy.
  apply (parity_eq _ _ 1 ((if x <? t then 1 else 0) + (if y <? t then 1 else 0))).
  induction pre as [|a pre IH].
  - cbn [inversions_of count_greater app].
    destruct (Nat.ltb_spec x t), (Nat.ltb_spec y t),
      (Nat.ltb_spec t x), (Nat.ltb_spec t y); lia.
  - cbn [inversions_of app]. rewrite !count_greater_app.
    cbn [count_greater]. lia.
Qed.

(** The positions listed by [MOVES] are the horizontal and vertical
    neighbours of a cell. *)
Lemma MOVES_shape blank ms m :
  MOVES !! blank = Some ms → m ∈ ms →
  m = blank + 1 ∨ blank = m + 1 ∨ m = blank + 3 ∨ blank = m + 3.
Proof.
  intros Hms Hm. apply elem_of_list_to_map_2 in Hms.
  repeat (apply elem_of_cons in Hms as [[= -> ->]|Hms]);
    [..|by apply elem_of_nil in Hms];
    repeat (apply elem_of_cons in Hm as [->|Hm]);
    try (by apply elem_of_nil in Hm); lia.
Qed.

Lemma swap_adjacent (s : list nat) b x t :
  s !! b = Some x → s !! S b = Some t →
  ∃ l1 l2, s = l1 ++ x :: t :: l2 ∧
           <[S b := x]> (<[b := t]> s) = l1 ++ t :: x :: l2.
Proof.
  revert s. induction b as [|b IH]; intros s Hb Hm.
  - destruct s as [|? [|? l2]]; simplify_eq/=. by exists [], l2.
  - destruct s as [|a s]; [done|]. simpl in Hb, Hm.
    destruct (IH s Hb Hm) as (l1 & l2 & -> & E).
    exists (a :: l1), l2. split; [done|]. simpl. by rewrite E.
Qed.

Lemma swap_vertical (s : list nat) b x u v t :
  s !! b = Some x → s !! S b = Some u → s !! S (S b) = Some v →
  s !! S (S (S b)) = Some t →
  ∃ l1 l2, s = l1 ++ x :: u :: v :: t :: l2 ∧
           <[S (S (S b)) := x]> (<[b := t]> s) = l1 ++ t :: u :: v :: x :: l2.
Proof.
  revert s. induction b as [|b IH]; intros s Hb Hu Hv Ht.
  - destruct s as [|? [|? [|? [|? l2]]]]; simplify_eq/=. by exists [], l2.
  - destruct s as [|a s]; [done|]. simpl in Hb, Hu, Hv, Ht.
    destruct (IH s Hb Hu Hv Ht) as (l1 & l2 & -> & E).
    exists (a :: l1), l2. split; [done|]. simpl. by rewrite E.
Qed.

Lemma filter_blank (l : list nat) :
  filter (λ x, x ≠ 0) (0 :: l) = filter (λ x, x ≠ 0) l.
Proof. apply filter_cons_False. by intros H. Qed.

Lemma filter_tile (x : nat) (l : list nat) :
  x ≠ 0 → filter (λ x, x ≠ 0) (x :: l) = x :: filter (λ x, x ≠ 0) l.
Proof. intros H. by apply filter_cons_True. Qed.

Lemma count_inversions_horizontal l1 x t l2 :
  x = 0 ∨ t = 0 →
  count_inversions (l1 ++ x :: t :: l2) = count_inversions (l1 ++ t :: x :: l2).
Proof.
  intros H. unfold count_inversions. rewrite !filter_app. f_equal. f_equal.
  destruct H as [-> | ->].
  - rewrite filter_blank. destruct (decide (t = 0)) as [->|Ht]; [done|].
    by rewrite !(filter_tile t), filter_blank by done.
  - destruct (decide (x = 0)) as [->|Hx]; [done|]. rewrite filter_blank.
    by rewrite !(filter_tile x), filter_blank by done.
Qed.

Lemma count_inversions_vertical l1 x u v t l2 :
  NoDup (l1 ++ x :: u :: v :: t :: l2) → x = 0 →
  count_inversions (l1 ++ t :: u :: v :: x :: l2) mod 2
  = count_inversions (l1 ++ x :: u :: v :: t :: l2) mod 2.
Proof.
  intros Hnd ->. apply NoDup_app in Hnd as (_ & _ & Hnd).
  rewrite !NoDup_cons in Hnd. destruct Hnd as (H0 & Hu & Hv & _).
  rewrite !not_elem_of_cons in H0. rewrite !not_elem_of_cons in Hu.
  rewrite !not_elem_of_cons in Hv.
  destruct H0 as (? & ? & ? & _), Hu as (? & ? & _), Hv as (? & _).
  unfold count_inversions. rewrite !filter_app.
  rewrite (filter_tile t), (filter_tile u), (filter_tile v), !filter_blank by done.
  rewrite (filter_tile u), (filter_tile v), (filter_tile t) by done.
  by apply inversions_rotate3.
Qed.

Lemma move_parity s s' :
  valid s → move s s' →
  count_inversions s' mod 2 = count_inversions s mod 2.
Proof.
  intros Hv (b & ms & m & t & Hb & Hms & Hm & Ht & ->).
  apply index_Some in Hb as [Hb _].
  pose proof (valid_NoDup _ Hv) as Hnd.
  destruct (MOVES_shape _ _ _ Hms Hm) as [-> | [-> | [-> | ->]]].
  - rewrite Nat.add_1_r in *.
    destruct (swap_adjacent s b 0 t Hb Ht) as (l1 & l2 & -> & ->).
    f_equal. symmetry. apply count_inversions_horizontal. by left.
  - rewrite Nat.add_1_r in *. rewrite list_insert_insert_ne by lia.
    destruct (swap_adjacent s m t 0 Ht Hb) as (l1 & l2 & -> & ->).
    f_equal. symmetry. apply count_inversions_horizontal. by right.
  - replace (b + 3) with (S (S (S b))) in * by lia.
    pose proof (lookup_lt_Some _ _ _ Ht) as Hlt.
    destruct (lookup_lt_is_Some_2 s (S b)) as [u Hu]; [lia|].
    destruct (lookup_lt_is_Some_2 s (S (S b))) as [v Hv']; [lia|].
    destruct (swap_vertical s b 0 u v t Hb Hu Hv' Ht) as (l1 & l2 & -> & ->).
    by apply count_inversions_vertical.
  - replace (m + 3) with (S (S (S m))) in * by lia.
    pose proof (lookup_lt_Some _ _ _ Hb) as Hlt.
    destruct (lookup_lt_is_Some_2 s (S m)) as [u Hu]; [lia|].
    destruct (lookup_lt_is_Some_2 s (S (S m))) as [v Hv']; [lia|].
    rewrite list_insert_insert_ne by lia.
    destruct (swap_vertical s m t u v 0 Ht Hu Hv' Hb) as (l1 & l2 & -> & ->).
    symmetry. apply count_inversions_vertical; [|done].
    eapply (NoDup_Permutation_proper _ _); [|exact Hnd]. solve_Permutation.
Qed.

Lemma reach_parity n a b :
  valid a → reach n a b → count_inversions b mod 2 = count_inversions a mod 2.
Proof.
  intros Hv. induction 1 as [|n a b c Hab IH Hbc]; [done|].
  rewrite <- IH by done. apply move_parity; [|done]. by eapply reach_valid.
Qed.

(** ** Every state with an even number of inversions reaches the goal *)

Lemma neighbors_move s n : n ∈ neighbors s → move s n.
Proof.
  unfold neighbors. intros H.
  destruct (index 0 s) as [blank|] eqn:Hb; [|by apply elem_of_nil in H].
  destruct (MOVES !! blank) as [ms|] eqn:Hms; [|by apply elem_of_nil in H].
  apply list_elem_of_omap in H as (m & Hm & Hs).
  destruct (swap s blank m) as [n'| |] eqn:Hsw; simplify_eq.
  apply move_swap. by exists blank, ms, m.
Qed.

Lemma reachable_step a b t : move a b → reachable b t → reachable a t.
Proof. intros Hm [n Hn]. exists (S n). by eapply reach_cons. Qed.

Lemma explore_add_sound t keep c ns seen frontier seen' frontier' :
  explore_add keep c ns seen frontier = (seen', frontier') →
  reachable c t →
  (∀ x, is_Some (seen !! x) → reachable x t) →
  Forall (λ x, reachable x t) frontier →
  (∀ x, is_Some (seen' !! x) → reachable x t) ∧
  Forall (λ x, reachable x t) frontier'.
Proof.
  intros He Hc. revert seen frontier He.
  induction ns as [|n ns IH]; intros seen frontier He Hs Hf; simpl in He.
  { by simplify_eq. }
  destruct (seen !! n) eqn:Hn; [by eapply IH|].
  destruct (keep n && bool_decide (c ∈ neighbors n)) eqn:Hk; [|by eapply IH].
  apply andb_true_iff in Hk as [_ Hk]. apply bool_decide_eq_true in Hk.
  assert (reachable n t) as Hnt.
  { eapply reachable_step; [|done]. by apply neighbors_move. }
  eapply IH; [done| |by constructor].
  intros x Hx. destruct (decide (x = n)) as [->|Hne]; [done|].
  rewrite lookup_insert_ne in Hx by done. by apply Hs.
Qed.

Lemma explore_sound t fuel keep frontier seen x :
  (∀ x, is_Some (seen !! x) → reachable x t) →
  Forall (λ x, reachable x t) frontier →
  is_Some (explore fuel keep frontier seen !! x) → reachable x t.
Proof.
  revert frontier seen. induction fuel as [|fuel IH]; intros frontier seen Hs Hf.
  { simpl. apply Hs. }
  destruct frontier as [|c frontier]; simpl; [apply Hs|].
  destruct (explore_add keep c (neighbors c) seen frontier)
    as [seen' frontier'] eqn:He.
  apply Forall_cons in Hf as [Hc Hf].
  destruct (explore_add_sound t _ _ _ _ _ _ _ He Hc Hs Hf) as [Hs' Hf'].
  by apply IH.
Qed.

Lemma explored_sound fuel keep t x :
  is_Some (explored fuel keep t !! x) → reachable x t.
Proof.
  apply explore_sound.
  - intros y Hy. destruct (decide (y = t)) as [->|Hne].
    + exists 0. apply reach_O.
    + rewrite lookup_singleton_ne in Hy by done. by destruct Hy.
  - repeat constructor. exists 0. apply reach_O.
Qed.

(** Moves do not look at the tiles: they commute with any relabelling that
    keeps the blank. *)
Lemma index_fmap (f : nat → nat) (s : list nat) :
  (∀ x, f x = 0 ↔ x = 0) → index 0 (f <$> s) = index 0 s.
Proof.
  intros Hf. induction s as [|y s IH]; [done|]. csimpl. rewrite IH.
  destruct (Nat.eqb_spec (f y) 0) as [H|H], (Nat.eqb_spec y 0) as [H'|H'];
    try done.
  - by destruct H', (proj1 (Hf y)).
  - by destruct H, (proj2 (Hf y)).
Qed.

Lemma move_lift (f : nat → nat) s a :
  (∀ x, f x = 0 ↔ x = 0) → move (f <$> s) a →
  ∃ s', move s s' ∧ f <$> s' = a.
Proof.
  intros Hf (b & ms & m & tile & Hb & Hms & Hm & Ht & ->).
  rewrite index_fmap in Hb by done.
  rewrite list_lookup_fmap in Ht. apply fmap_Some in Ht as (tile' & Ht & ->).
  exists (<[m := 0]> (<[b := tile']> s)). split.
  - by exists b, ms, m, tile'.
  - rewrite !list_fmap_insert. f_equal. by apply Hf.
Qed.

Lemma reach_lift (f : nat → nat) n s a :
  (∀ x, f x = 0 ↔ x = 0) → reach n (f <$> s) a →
  ∃ s', reach n s s' ∧ f <$> s' = a.
Proof.
  intros Hf H. remember (f <$> s) as a0 eqn:Ha0.
  induction H as [|n a0 b c Hab IH Hbc]; subst.
  - exists s. split; [apply reach_O|done].
  - destruct IH as (sb & Hsb & <-); [done|].
    destruct (move_lift f sb c Hf Hbc) as (sc & Hsc & <-).
    exists sc. split; [|done]. by eapply reach_S.
Qed.

(** A set closed under the exchange of adjacent cells holds every
    rearrangement of its members. *)
Lemma adj_swap_app pre x y l :
  adj_swap (length pre) (pre ++ x :: y :: l) = pre ++ y :: x :: l.
Proof. induction pre as [|a pre IH]; simpl; [done|]. by rewrite IH. Qed.

Lemma adj_closed_spec L a i :
  adj_closed L = true → is_Some (L !! a) → i < 8 →
  length a = 9 ∧ is_Some (L !! adj_swap i a).
Proof.
  unfold adj_closed. rewrite forallb_forall. intros H [[] Ha] Hi.
  assert (a ∈ (map_to_list L).*1) as Hin.
  { apply list_elem_of_fmap. exists (a, ()). split; [done|].
    by apply elem_of_map_to_list. }
  apply list_elem_of_In, H, andb_true_iff in Hin as [Hl Hsw].
  apply Nat.eqb_eq in Hl. split; [done|].
  rewrite forallb_forall in Hsw.
  apply (bool_decide_eq_true_1 (is_Some (L !! adj_swap i a))), Hsw.
  apply list_elem_of_In, elem_of_seq. lia.
Qed.

Lemma adj_closed_perm_app L (l l' : list nat) :
  adj_closed L = true → l ≡ₚ l' →
  ∀ pre, is_Some (L !! (pre ++ l)) → is_Some (L !! (pre ++ l')).
Proof.
  intros HL Hp. induction Hp as [|x l l' Hp IH|x y l|l l' l'' Hp IH Hp' IH'];
    intros pre Hin.
  - done.
  - rewrite cons_middle, app_assoc. apply IH. by rewrite <- app_assoc.
  - destruct (adj_closed_spec L _ 0 HL Hin) as [Hlen _]; [lia|].
    rewrite length_app in Hlen. simpl in Hlen.
    destruct (adj_closed_spec L _ (length pre) HL Hin) as [_ Hsw]; [lia|].
    by rewrite adj_swap_app in Hsw.
  - by apply IH', IH.
Qed.

Lemma adj_closed_perm L (a a' : list nat) :
  adj_closed L = true → is_Some (L !! a) → a ≡ₚ a' → is_Some (L !! a').
Proof. intros HL Ha Hp. by apply (adj_closed_perm_app L a a' HL Hp []). Qed.



(** *** First stage: the top row *)

Lemma blur_blank x : blur x = 0 ↔ x = 0.
Proof. unfold blur. destruct (Nat.ltb_spec x 4); lia. Qed.

Lemma blur_small x y : blur x = y → y < 4 → x = y.
Proof. unfold blur. destruct (Nat.ltb_spec x 4); lia. Qed.

Lemma blur_large x : blur x = 9 → 4 ≤ x.
Proof. unfold blur. destruct (Nat.ltb_spec x 4); lia. Qed.

Lemma top_row_states_check :
  (let L := top_row_states in
   adj_closed L && bool_decide (is_Some (L !! top_row_target))) = true.
Proof. vm_compute. reflexivity. Qed.

Lemma reach_top_row s :
  valid s → ∃ n s1, reach n s s1 ∧ blur <$> s1 = top_row_target.
Proof.
  intros Hv. pose proof top_row_states_check as Hc. cbv zeta in Hc.
  apply andb_true_iff in Hc as [Hcl Hin].
  apply (bool_decide_eq_true_1 (is_Some (top_row_states !! top_row_target))) in Hin.
  assert (top_row_target ≡ₚ blur <$> s) as Hp.
  { unfold valid in Hv. rewrite Hv.
    change (blur <$> seq 0 9) with (0 :: [1; 2; 3; 9; 9; 9; 9; 9]).
    change top_row_target with ([1; 2; 3; 9; 9; 9; 9; 9] ++ [0]).
    symmetry. apply Permutation_cons_append. }
  pose proof (adj_closed_perm _ _ _ Hcl Hin Hp) as Hs.
  apply explored_sound in Hs as [n Hn].
  destruct (reach_lift blur n s _ blur_blank Hn) as (s1 & H1 & H2).
  exists n, s1. split; assumption.
Qed.

Lemma top_row_shape s1 :
  valid s1 → blur <$> s1 = top_row_target →
  ∃ p, s1 = [1; 2; 3] ++ p ++ [0] ∧ p ∈ permutations [4; 5; 6; 7; 8].
Proof.
  intros Hv Hb.
  pose proof (valid_length _ Hv) as Hl.
  do 9 (destruct s1 as [|? s1]; [discriminate Hl|]).
  destruct s1; [clear Hl|discriminate Hl].
  unfold top_row_target in Hb. csimpl in Hb. simplify_eq.
  repeat match goal with
         | H : blur _ = 9 |- _ => clear H
         | H : blur _ = _ |- _ => apply blur_small in H; [subst|lia]
         end.
  eexists [_; _; _; _; _]. split; [reflexivity|].
  apply permutations_Permutation. unfold valid in Hv.
  apply (inj (cons 0)), (inj (cons 1)), (inj (cons 2)), (inj (cons 3)).
  assert (seq 0 9 ≡ₚ 3 :: 2 :: 1 :: 0 :: [4; 5; 6; 7; 8]) as <-
    by (simpl; solve_Permutation).
  rewrite <- Hv. solve_Permutation.
Qed.

(** *** Second stage: the two lower rows *)

Lemma bottom_states_check : bottom_complete = true.
Proof. vm_compute. reflexivity. Qed.

Lemma reach_from_top_row s1 :
  valid s1 → blur <$> s1 = top_row_target → is_solvable s1 = true →
  reachable s1 canonical_goal.
Proof.
  intros Hv Hb Hs. destruct (top_row_shape s1 Hv Hb) as (p & -> & Hp).
  pose proof bottom_states_check as Hc. unfold bottom_complete in Hc.
  rewrite forallb_forall in Hc. apply list_elem_of_In, Hc in Hp.
  cbv zeta in Hp. rewrite Hs in Hp. simpl in Hp.
  apply (bool_decide_eq_true_1 (is_Some _)) in Hp.
  by apply explored_sound in Hp.
Qed.

Lemma is_solvable_parity s :
  is_solvable s = true ↔ count_inversions s mod 2 = 0.
Proof. unfold is_solvable. apply Nat.eqb_eq. Qed.

Lemma even_reaches_goal s :
  valid s → is_solvable s = true → reachable s canonical_goal.
Proof.
  intros Hv Hs. destruct (reach_top_row s Hv) as (n & s1 & Hn & Hb).
  destruct (reach_from_top_row s1) as [k Hk]; [by eapply reach_valid|done| |].
  - apply is_solvable_parity. rewrite (reach_parity n s s1) by done.
    by apply is_solvable_parity.
  - exists (n + k). by eapply reach_trans.
Qed.

Lemma reaches_goal_even s :
  valid s → reachable s canonical_goal → is_solvable s = true.
Proof.
  intros Hv [n Hn]. apply is_solvable_parity.
  by rewrite <- (reach_parity n s canonical_goal).
Qed.

(** C5. For every valid state [s], [is_solvable s] holds exactly when
    [count_inversions s] is even, and exactly when the canonical goal
    [1 2 3 4 5 6 7 8 0] is reachable from [s] by blank moves; for the start
    [1 2 3 4 5 6 8 7 0] the count is 1 and [is_solvable] reports false. *)
Theorem is_solvable_decides_reachability (s : state) :
  valid s →
  (is_solvable s = true ↔ Nat.Even (count_inversions s)) ∧
  (is_solvable s = true ↔ reachable s canonical_goal) ∧
  count_inversions [1; 2; 3; 4; 5; 6; 8; 7; 0] = 1 ∧
  is_solvable [1; 2; 3; 4; 5; 6; 8; 7; 0] = false.
Proof.
  intros Hv. split_and!; [|split|reflexivity..].
  - rewrite is_solvable_parity, Nat.Div0.mod_divides. done.
  - by apply even_reaches_goal.
  - by apply reaches_goal_even.
Qed.

Lemma is_solvable_decides_reachability_witness :
  valid scenario_3_start ∧
  ((is_solvable scenario_3_start = true ↔
    Nat.Even (count_inversions scenario_3_start)) ∧
   (is_solvable scenario_3_start = true ↔
    reachable scenario_3_start canonical_goal) ∧
   count_inversions [1; 2; 3; 4; 5; 6; 8; 7; 0] = 1 ∧
   is_solvable [1; 2; 3; 4; 5; 6; 8; 7; 0] = false).
Proof.
  assert (valid scenario_3_start) as Hv by (apply valid_check; reflexivity).
  split; [exact Hv|]. exact (is_solvable_decides_reachability _ Hv).
Defined.


(** * Parsing *)

Lemma py_int_cases max x :
  py_int max x = Raise ValueError ∨ ∃ z, py_int max x = Ok z.
Proof.
  unfold py_int.
  destruct (match x with
            | [] => (false, x)
            | c :: x' =>
                if Ascii.eqb c "+" then (false, x')
                else if Ascii.eqb c "-" then (true, x') else (false, x)
            end) as [negative body].
  destruct body as [|c body]; [by left|].
  destruct (Ascii.eqb c "_"); [by left|].
  destruct (int_digits false 0 0 (c :: body)) as [[v digits]|]; [|by left].
  destruct (_ && _); [by left|]. right. by eexists.
Qed.

Lemma ints_cases max parts :
  ints max parts = Raise ValueError ∨
  ∃ nums, ints max parts = Ok nums ∧ length nums = length parts.
Proof.
  induction parts as [|x parts IH]; simpl; [right; by exists []|].
  destruct (py_int_cases max x) as [->|[z ->]]; [by left|]. res_simpl.
  destruct IH as [->|(nums & -> & Hlen)]; [by left|]. res_simpl.
  right. exists (z :: nums). by rewrite <- Hlen.
Qed.

Lemma parse_state_cases max text :
  parse_state max text = Raise ValueError ∨
  ∃ s, parse_state max text = Ok s ∧ valid s.
Proof.
  unfold parse_state.
  destruct (negb _); [by left|].
  destruct (ints_cases max
              (split (replace_comma <$> String.list_ascii_of_string text)))
    as [->|(nums & -> & _)]; [by left|]. res_simpl.
  destruct (bool_decide_reflect
              (merge_sort Z.le nums = Z.of_nat <$> seq 0 9)) as [Hs|_];
    [|by left].
  right. eexists. split; [done|]. unfold valid.
  rewrite <- (merge_sort_Permutation Z.le nums), Hs. done.
Qed.

(** X1. [parse_state] has two outcomes only: [ValueError], or a list that
    holds each of 0..8 exactly once. *)
Theorem parse_state_returns_valid (max_str_digits : nat) (text : string) :
  parse_state max_str_digits text = Raise ValueError ∨
  ∃ s, parse_state max_str_digits text = Ok s ∧ valid s.
Proof. apply parse_state_cases. Qed.

(** ** Reading back the text of a state *)

Lemma split_spaces l t :
  Forall (λ c, py_isspace c = true) l → split (l ++ t) = split t.
Proof. induction 1 as [|c l Hc _ IH]; [done|]. simpl. by rewrite Hc. Qed.

Lemma split_part c sp t :
  py_isspace c = false → sp ≠ [] → Forall (λ c, py_isspace c = true) sp →
  split (c :: sp ++ t) = [c] :: split t.
Proof.
  intros Hc Hne Hsp. destruct sp as [|c' sp]; [done|].
  apply Forall_cons in Hsp as [Hc' Hsp].
  change (split (c :: (c' :: sp) ++ t))
    with (let parts := split ((c' :: sp) ++ t) in
          if py_isspace c then parts
          else if py_isspace c' then [c] :: parts
               else match parts with
                    | part :: parts' => (c :: part) :: parts'
                    | [] => [[c]]
                    end).
  cbv zeta. rewrite Hc, Hc'. f_equal.
  apply (split_spaces (c' :: sp)). by constructor.
Qed.

Lemma digit_char_facts d :
  d < 10 →
  replace_comma (digit_char d) = digit_char d ∧
  py_isspace (digit_char d) = false ∧
  ∀ max, py_int max [digit_char d] = Ok (Z.of_nat d).
Proof.
  intros Hd. do 10 (destruct d as [|d]; [by split_and!|]). lia.
Qed.

Lemma separator_facts sep :
  Forall (λ c, c = ","%char ∨ c = " "%char) sep →
  Forall (λ c, py_isspace c = true) (replace_comma <$> sep).
Proof.
  induction 1 as [|c sep [-> | ->] _ IH]; csimpl; by constructor.
Qed.

Lemma join_cons sep x parts :
  parts ≠ [] → join sep (x :: parts) = x ++ sep ++ join sep parts.
Proof. by destruct parts. Qed.

Lemma split_join sep (cs : list ascii) :
  sep ≠ [] → Forall (λ c, py_isspace c = true) sep →
  Forall (λ c, py_isspace c = false) cs →
  split (join sep ((λ c, [c]) <$> cs)) = (λ c, [c]) <$> cs.
Proof.
  intros Hne Hsep Hcs. induction Hcs as [|c cs Hc Hcs IH]; [done|].
  rewrite fmap_cons. destruct (decide (cs = [])) as [->|Hcs'].
  - cbn [fmap list_fmap join split]. by rewrite Hc.
  - rewrite join_cons by (by intros ?%fmap_nil_inv).
    change ([c] ++ sep ++ ?t) with (c :: sep ++ t).
    rewrite split_part by done. by rewrite IH.
Qed.

Lemma replace_comma_join sep (s : state) :
  Forall (λ d, d < 10) s →
  replace_comma <$> join sep ((λ d, [digit_char d]) <$> s)
  = join (replace_comma <$> sep) ((λ c, [c]) <$> (digit_char <$> s)).
Proof.
  induction 1 as [|d s Hd Hs IH]; [done|].
  destruct (digit_char_facts d Hd) as (Hr & _ & _).
  rewrite !fmap_cons. destruct (decide (s = [])) as [->|Hs'].
  - cbn [fmap list_fmap join]. by rewrite Hr.
  - rewrite !join_cons by (by intros ?%fmap_nil_inv%fmap_nil_inv
                           || by intros ?%fmap_nil_inv).
    rewrite !fmap_app, IH. cbn [fmap list_fmap]. by rewrite Hr.
Qed.

Lemma split_state_text sep (s : state) :
  sep ≠ [] → Forall (λ c, c = ","%char ∨ c = " "%char) sep →
  Forall (λ d, d < 10) s →
  split (replace_comma <$> join sep ((λ d, [digit_char d]) <$> s))
  = (λ d, [digit_char d]) <$> s.
Proof.
  intros Hne Hsep Hs. rewrite replace_comma_join by done.
  rewrite split_join.
  - by rewrite <- list_fmap_compose.
  - intros H. apply fmap_nil_inv in H. done.
  - by apply separator_facts.
  - apply Forall_fmap. eapply Forall_impl; [exact Hs|].
    intros d Hd. by apply digit_char_facts.
Qed.

Lemma ints_digits max (s : state) :
  Forall (λ d, d < 10) s →
  ints max ((λ d, [digit_char d]) <$> s) = Ok (Z.of_nat <$> s).
Proof.
  induction 1 as [|d s Hd Hs IH]; [done|].
  destruct (digit_char_facts d Hd) as (_ & _ & Hi).
  rewrite !fmap_cons. cbn [ints]. rewrite Hi. res_simpl. rewrite IH.
  by res_simpl.
Qed.

Lemma sorted_valid (s : state) :
  valid s → merge_sort Z.le (Z.of_nat <$> s) = Z.of_nat <$> seq 0 9.
Proof.
  intros Hv. apply (Sorted_unique Z.le).
  - apply Sorted_merge_sort. apply _.
  - simpl. repeat constructor; lia.
  - rewrite merge_sort_Permutation. unfold valid in Hv. by rewrite Hv.
Qed.

(** X2. The digits of a valid state, written with any non-empty mix of
    commas and blanks between them, parse back to that state. *)
Theorem parse_state_reads_state_text (max_str_digits : nat)
    (sep : list ascii) (s : state) :
  valid s → sep ≠ [] → Forall (λ c, c = ","%char ∨ c = " "%char) sep →
  parse_state max_str_digits (state_text sep s) = Ok s.
Proof.
  intros Hv Hne Hsep.
  assert (Forall (λ d, d < 10) s) as Hs.
  { apply Forall_forall. intros d Hd. apply (valid_elem s d Hv) in Hd. lia. }
  unfold parse_state, state_text.
  rewrite String.list_ascii_of_string_of_list_ascii.
  rewrite split_state_text by done.
  rewrite length_fmap, (valid_length s Hv). cbn [Nat.eqb negb].
  rewrite ints_digits by done. res_simpl.
  rewrite sorted_valid by done. rewrite bool_decide_eq_true_2 by done.
  cbn [negb]. f_equal. rewrite <- list_fmap_compose.
  rewrite <- (list_fmap_id s) at 2. apply list_fmap_ext.
  intros i d _. simpl. lia.
Qed.

Lemma parse_state_reads_state_text_witness :
  parse_state 4300 (state_text [","%char; " "%char] scenario_start)
  = Ok scenario_start.
Proof.
  apply parse_state_reads_state_text.
  - apply valid_check. reflexivity.
  - discriminate.
  - apply Forall_cons. split; [by left|].
    apply Forall_cons. split; [by right|]. apply Forall_nil_2.
Defined.


(** * The move table *)

Lemma adjacent_table b ms :
  (b, ms) ∈ [ (0, [1; 3]); (1, [0; 2; 4]); (2, [1; 5]); (3, [0; 4; 6]);
              (4, [1; 3; 5; 7]); (5, [2; 4; 8]); (6, [3; 7]);
              (7, [4; 6; 8]); (8, [5; 7]) ] →
  b < 9 ∧ NoDup ms ∧ ∀ m, m ∈ ms → m < 9 ∧ adjacent b m.
Proof.
  intros H. repeat (apply elem_of_cons in H as [[= -> ->]|H]);
    [..|by apply elem_of_nil in H];
    (split; [lia|]); (split; [by apply (bool_decide_eq_true_1 (NoDup _))|]);
    intros m Hm;
    repeat (apply elem_of_cons in Hm as [->|Hm]);
    try (by apply elem_of_nil in Hm);
    (split; [lia|]); unfold adjacent, row, col; simpl; lia.
Qed.

(** X3. [MOVES] is the adjacency of the 3x3 grid: [MOVES[b]] exists exactly
    for the nine cells, lists no cell twice, and lists [m] exactly when [m]
    is a cell next to [b] in its row or its column. *)
Theorem MOVES_is_grid_adjacency (b m : nat) :
  (is_Some (MOVES !! b) ↔ b < 9) ∧
  NoDup (default [] (MOVES !! b)) ∧
  (m ∈ default [] (MOVES !! b) ↔ b < 9 ∧ m < 9 ∧ adjacent b m).
Proof.
  split_and!.
  - split; [|apply MOVES_is_Some]. intros [ms Hms].
    by apply MOVES_lookup in Hms as [? _].
  - destruct (MOVES !! b) as [ms|] eqn:Hms; [|constructor].
    apply elem_of_list_to_map_2, adjacent_table in Hms. by destruct Hms as (_ & ? & _).
  - split.
    + destruct (MOVES !! b) as [ms|] eqn:Hms; [|by intros ?%elem_of_nil].
      apply elem_of_list_to_map_2, adjacent_table in Hms.
      destruct Hms as (Hb & _ & H). intros Hm. by destruct (H m Hm).
    + intros (Hb & Hm & Ha). unfold adjacent, row, col in Ha.
      do 9 (destruct b as [|b];
            [do 9 (destruct m as [|m];
                   [first [ by (exfalso; simpl in Ha; lia)
                          | by apply (bool_decide_eq_true_1 (_ ∈ _)) ] |]);
             lia|]).
      lia.
Qed.

(** * The heuristic *)

Lemma sum_list_zero (l : list nat) : sum_list l = 0 → Forall (λ x, x = 0) l.
Proof.
  induction l as [|x l IH]; simpl; intros H; constructor; [lia|apply IH; lia].
Qed.

Lemma misplaced_at_zero s goal i si :
  misplaced_at s goal i = 0 → s !! i = Some si → is_Some (goal !! i) →
  si ≠ 0 → goal !! i = Some si.
Proof.
  unfold misplaced_at. intros H Hs [gi Hg] Hne. rewrite Hs, Hg in H.
  destruct (Nat.eqb_spec si gi) as [->|?]; [done|].
  destruct (Nat.eqb_spec si 0); [done|]. done.
Qed.

(** X4. On valid states the heuristic is 0 at the goal and nowhere else. *)
Theorem h_misplaced_zero_iff_goal (s goal : state) :
  valid s → valid goal → (h_misplaced s goal = Ok 0 ↔ s = goal).
Proof.
  intros Hs Hg. rewrite (h_misplaced_Ok s goal Hs Hg). split.
  - intros H. assert (sum_list (misplaced_at s goal <$> seq 0 9) = 0) as H0
      by congruence. clear H. apply sum_list_zero in H0.
    rewrite Forall_fmap, Forall_forall in H0.
    assert (∀ i si, s !! i = Some si → si ≠ 0 → goal !! i = Some si) as Htile.
    { intros i si Hi Hne. eapply misplaced_at_zero; [|done| |done].
      - apply H0, elem_of_seq. apply lookup_lt_Some in Hi.
        rewrite (valid_length s Hs) in Hi. lia.
      - apply lookup_lt_is_Some_2. apply lookup_lt_Some in Hi.
        rewrite (valid_length s Hs) in Hi. by rewrite (valid_length goal Hg). }
    apply list_eq. intros i.
    destruct (s !! i) as [si|] eqn:Hi.
    + destruct (decide (si = 0)) as [->|Hne]; [|symmetry; by apply Htile].
      destruct (goal !! i) as [gi|] eqn:Hgi.
      * destruct (decide (gi = 0)) as [->|Hgne]; [done|]. exfalso.
        assert (gi ∈ s) as Hin.
        { apply (valid_elem s gi Hs). apply (valid_elem goal gi Hg).
          by eapply list_elem_of_lookup_2. }
        apply list_elem_of_lookup in Hin as [j Hj].
        pose proof (Htile j gi Hj Hgne) as Hgj.
        pose proof (NoDup_lookup goal i j gi (valid_NoDup goal Hg) Hgi Hgj).
        simplify_eq.
      * apply lookup_lt_Some in Hi. apply lookup_ge_None in Hgi.
        rewrite (valid_length s Hs) in Hi.
        rewrite (valid_length goal Hg) in Hgi. lia.
    + apply lookup_ge_None in Hi. symmetry. apply lookup_ge_None.
      rewrite (valid_length s Hs) in Hi. by rewrite (valid_length goal Hg).
  - intros ->. by rewrite h_goal_zero.
Qed.

Lemma h_misplaced_zero_iff_goal_witness :
  h_misplaced canonical_goal canonical_goal = Ok 0
  ↔ canonical_goal = canonical_goal.
Proof.
  apply h_misplaced_zero_iff_goal; apply valid_check; reflexivity.
Defined.

(** X5. One move changes the heuristic by at most one, in either
    direction. *)
Theorem h_misplaced_step (s s' goal : state) :
  valid s → valid goal → move s s' →
  ∃ h h', h_misplaced s goal = Ok h ∧ h_misplaced s' goal = Ok h' ∧
          h ≤ h' + 1 ∧ h' ≤ h + 1.
Proof.
  intros Hs Hg Hm. pose proof (move_valid s s' Hs Hm) as Hs'.
  eexists _, _. split_and!; [by apply h_misplaced_Ok..| |].
  - by apply h_move.
  - apply h_move. by apply move_sym.
Qed.

Lemma h_misplaced_step_witness :
  ∃ h h', h_misplaced [1; 2; 3; 4; 5; 6; 7; 0; 8] canonical_goal = Ok h ∧
          h_misplaced canonical_goal canonical_goal = Ok h' ∧
          h ≤ h' + 1 ∧ h' ≤ h + 1.
Proof.
  apply h_misplaced_step.
  - apply valid_check. reflexivity.
  - apply valid_check. reflexivity.
  - exact (move_check [1; 2; 3; 4; 5; 6; 7; 0; 8] 7 [4; 6; 8] 8 8
             eq_refl eq_refl eq_refl eq_refl).
Defined.

Lemma h_sum_raise idxs s goal :
  (∃ i, i ∈ idxs ∧ (length s ≤ i ∨ length goal ≤ i)) →
  h_sum idxs s goal = Raise IndexError.
Proof.
  induction idxs as [|i idxs IH]; intros (j & Hj & Hout).
  { by apply elem_of_nil in Hj. }
  cbn [h_sum]. unfold getitem.
  destruct (s !! i) as [si|] eqn:Hsi; [|done]. res_simpl.
  destruct (goal !! i) as [gi|] eqn:Hgi; [|done]. res_simpl.
  rewrite IH; [done|]. exists j. split; [|done].
  apply elem_of_cons in Hj as [->|Hj]; [|done].
  apply lookup_lt_Some in Hsi, Hgi. lia.
Qed.

Lemma sum_list_le_length (f : nat → nat) (l : list nat) :
  (∀ i, f i ≤ 1) → sum_list (f <$> l) ≤ length l.
Proof.
  intros H. induction l as [|i l IH]; csimpl; [done|].
  specialize (H i). lia.
Qed.

(** X6. [h_misplaced] reads the first nine cells of both lists: it raises
    [IndexError] exactly when one of them is shorter than nine, and
    otherwise returns a count of at most nine. *)
Theorem h_misplaced_index_error (s goal : state) :
  (h_misplaced s goal = Raise IndexError
   ↔ length s < 9 ∨ length goal < 9) ∧
  ((∃ h, h_misplaced s goal = Ok h ∧ h ≤ 9)
   ↔ 9 ≤ length s ∧ 9 ≤ length goal).
Proof.
  destruct (decide (9 ≤ length s ∧ 9 ≤ length goal)) as [[H1 H2]|Hshort].
  - assert (h_misplaced s goal
            = Ok (sum_list (misplaced_at s goal <$> seq 0 9))) as E.
    { apply h_sum_Ok. intros i Hi%elem_of_seq. lia. }
    rewrite E. split; split; try done; try lia.
    intros _. eexists. split; [done|].
    etrans; [apply sum_list_le_length, misplaced_at_le_1|]. done.
  - assert (h_misplaced s goal = Raise IndexError) as E.
    { apply h_sum_raise.
      exists (length s `min` length goal). rewrite elem_of_seq. lia. }
    rewrite E. split; split; try done; try lia.
    by intros (h & ? & _).
Qed.

(** * Moves *)

(** X7. A move leads from a valid state to a different valid state, and
    the move back is a move too. *)
Theorem move_reversible (s s' : state) :
  valid s → move s s' → valid s' ∧ s' ≠ s ∧ move s' s.
Proof.
  intros Hv Hm. split_and!.
  - by eapply move_valid.
  - intros ->. by eapply move_ne.
  - by apply move_sym.
Qed.

Lemma move_reversible_witness :
  valid canonical_goal ∧ canonical_goal ≠ [1; 2; 3; 4; 5; 6; 7; 0; 8] ∧
  move canonical_goal [1; 2; 3; 4; 5; 6; 7; 0; 8].
Proof.
  apply move_reversible.
  - apply valid_check. reflexivity.
  - exact (move_check [1; 2; 3; 4; 5; 6; 7; 0; 8] 7 [4; 6; 8] 8 8
             eq_refl eq_refl eq_refl eq_refl).
Defined.

(** * Path reconstruction *)

Lemma reconstruct_loop_cycle (fuel : nat) (cf : gmap state (option state))
    (cur : state) (acc : list state) :
  (∀ s, cf !! s ≠ Some None) →
  (∀ s p, cf !! s = Some (Some p) → is_Some (cf !! p)) →
  is_Some (cf !! cur) →
  reconstruct_loop fuel cf cur acc = OutOfFuel.
Proof.
  intros Hroot Hlink. revert cur acc.
  induction fuel as [|fuel IH]; intros cur acc [[p|] Hcur]; [done|done| |].
  - simpl. rewrite Hcur. apply IH. by eapply Hlink.
  - by destruct (Hroot cur).
Qed.

(** X8. [reconstruct_path] stops only at a state that is not a key or that
    maps to [None]: on a predecessor map without such a state on the way, it
    does not return, whatever the fuel. *)
Theorem reconstruct_path_needs_root (fuel : nat)
    (came_from : gmap state (option state)) (current : state) :
  (∀ s, came_from !! s ≠ Some None) →
  (∀ s p, came_from !! s = Some (Some p) → is_Some (came_from !! p)) →
  is_Some (came_from !! current) →
  reconstruct_path fuel came_from current = OutOfFuel.
Proof.
  intros Hroot Hlink Hcur. unfold reconstruct_path.
  by rewrite reconstruct_loop_cycle.
Qed.

Lemma reconstruct_path_needs_root_witness :
  reconstruct_path 1000 {[ canonical_goal := Some canonical_goal ]}
    canonical_goal = OutOfFuel.
Proof.
  apply reconstruct_path_needs_root.
  - intros s. destruct (decide (s = canonical_goal)) as [->|Hne].
    + by rewrite lookup_singleton_eq.
    + by rewrite lookup_singleton_ne.
  - intros s p. destruct (decide (s = canonical_goal)) as [->|Hne].
    + rewrite lookup_singleton_eq. intros [= <-].
      rewrite lookup_singleton_eq. by eexists.
    + by rewrite lookup_singleton_ne.
  - rewrite lookup_singleton_eq. by eexists.
Defined.

(** * Inversions *)

Lemma count_greater_zero x l :
  count_greater x l = 0 ↔ Forall (λ y, x ≤ y) l.
Proof.
  induction l as [|y l IH]; simpl; [by split|].
  rewrite Forall_cons, <- IH.
  destruct (Nat.ltb_spec y x); lia.
Qed.

Lemma inversions_of_zero l :
  inversions_of l = 0 ↔ StronglySorted le l.
Proof.
  induction l as [|x l IH]; simpl.
  - split; [constructor|done].
  - split.
    + intros H. constructor; [apply IH; lia|]. apply count_greater_zero. lia.
    + intros H. apply StronglySorted_inv in H as [H1 H2].
      apply IH in H1. apply count_greater_zero in H2. lia.
Qed.

(** X9. A valid state has no inversion exactly when its tiles, read
    without the blank, are in the order 1 to 8. *)
Theorem count_inversions_zero_iff_ordered (s : state) :
  valid s →
  (count_inversions s = 0 ↔ filter (λ x, x ≠ 0) s = [1; 2; 3; 4; 5; 6; 7; 8]).
Proof.
  intros Hv. unfold count_inversions. rewrite inversions_of_zero. split.
  - intros H. apply (Sorted_unique le).
    + by apply StronglySorted_Sorted.
    + repeat constructor.
    + unfold valid in Hv. by rewrite Hv.
  - intros ->. repeat constructor; lia.
Qed.

Lemma count_inversions_zero_iff_ordered_witness :
  count_inversions [1; 2; 0; 3; 4; 5; 6; 7; 8] = 0
  ↔ filter (λ x, x ≠ 0) [1; 2; 0; 3; 4; 5; 6; 7; 8] = [1; 2; 3; 4; 5; 6; 7; 8].
Proof.
  apply count_inversions_zero_iff_ordered. apply valid_check. reflexivity.
Defined.


(** * The two halves of the state space *)

Lemma bottom_states_odd_check : bottom_complete_odd = true.
Proof. vm_compute. reflexivity. Qed.

Lemma valid_scenario_3_start : valid scenario_3_start.
Proof. apply valid_check. reflexivity. Qed.

Lemma odd_reaches_scenario_3 s :
  valid s → is_solvable s = false → reachable s scenario_3_start.
Proof.
  intros Hv Hs. destruct (reach_top_row s Hv) as (n & s1 & Hn & Hb).
  pose proof (reach_valid n s s1 Hv Hn) as Hv1.
  assert (is_solvable s1 = false) as Hs1.
  { unfold is_solvable in *. by rewrite (reach_parity n s s1). }
  destruct (top_row_shape s1 Hv1 Hb) as (p & -> & Hp).
  pose proof bottom_states_odd_check as Hc. unfold bottom_complete_odd in Hc.
  rewrite forallb_forall in Hc. apply list_elem_of_In, Hc in Hp.
  cbv zeta in Hp. rewrite Hs1 in Hp. cbn [negb implb] in Hp.
  apply (bool_decide_eq_true_1 (is_Some _)) in Hp.
  apply explored_sound in Hp as [k Hk].
  exists (n + k). by eapply reach_trans.
Qed.

Lemma reachable_trans a b c : reachable a b → reachable b c → reachable a c.
Proof. intros [n Hn] [k Hk]. exists (n + k). by eapply reach_trans. Qed.

Lemma reachable_parity a b :
  valid a → valid b → (reachable a b ↔ is_solvable a = is_solvable b).
Proof.
  intros Ha Hb. split.
  - intros [n Hn]. unfold is_solvable. by rewrite (reach_parity n a b).
  - intros H. destruct (is_solvable a) eqn:Hsa.
    + eapply reachable_trans; [by apply even_reaches_goal|].
      apply reachable_sym; [done|]. by apply even_reaches_goal.
    + eapply reachable_trans; [by apply odd_reaches_scenario_3|].
      apply reachable_sym; [done|]. by apply odd_reaches_scenario_3.
Qed.

(** X10. Between valid states, one is reachable from the other exactly
    when [is_solvable] gives both the same verdict. *)
Theorem reachable_iff_same_parity (a b : state) :
  valid a → valid b → (reachable a b ↔ is_solvable a = is_solvable b).
Proof. apply reachable_parity. Qed.

Lemma reachable_iff_same_parity_witness :
  reachable scenario_start canonical_goal
  ↔ is_solvable scenario_start = is_solvable canonical_goal.
Proof.
  apply reachable_iff_same_parity; apply valid_check; reflexivity.
Defined.

(** * The searches on valid and on malformed states *)

Lemma reconstruct_path_no_raise fuel cf cur e :
  reconstruct_path fuel cf cur ≠ Raise e.
Proof.
  unfold reconstruct_path.
  pose proof (reconstruct_loop_no_raise fuel cf cur [cur] e).
  destruct (reconstruct_loop fuel cf cur [cur]); res_simpl; done.
Qed.

Lemma bfs_loop_no_raise start goal fuel st e :
  bfs_inv start goal st → bfs_loop fuel goal st ≠ Raise e.
Proof.
  revert st. induction fuel as [|fuel IH]; intros st Hinv; [done|].
  cbn [bfs_loop].
  destruct (bfs_step_cases fuel start goal st Hinv)
    as [[-> _]|[(dm & -> & _)|(st' & -> & Hinv' & _)]]; res_simpl.
  - done.
  - pose proof (reconstruct_path_no_raise fuel (bfs_came_from st) goal e).
    destruct (reconstruct_path fuel (bfs_came_from st) goal); res_simpl;
      [discriminate|intros [= ->]; by apply H|discriminate].
  - by apply IH.
Qed.

Lemma astar_loop_no_raise start goal fuel st e :
  valid goal → astar_inv start goal st → astar_loop fuel goal st ≠ Raise e.
Proof.
  intros Hg. revert st. induction fuel as [|fuel IH]; intros st Hinv; [done|].
  cbn [astar_loop].
  destruct (astar_step_cases fuel start goal st Hg Hinv)
    as [[-> _]|[(-> & _)|(st' & -> & Hinv' & _)]]; res_simpl.
  - done.
  - pose proof (reconstruct_path_no_raise fuel (as_came_from st) goal e).
    destruct (reconstruct_path fuel (as_came_from st) goal); res_simpl;
      [discriminate|intros [= ->]; by apply H|discriminate].
  - by apply IH.
Qed.

(** X11. On valid states neither search raises an exception: no
    [ValueError] from [index], no [KeyError] from [MOVES] or [g_score], no
    [IndexError] from the swap or the heuristic. *)
Theorem searches_never_raise (fuel : nat) (start goal : state) (e : exn) :
  valid start → valid goal →
  bfs fuel start goal ≠ Raise e ∧ a_star_misplaced fuel start goal ≠ Raise e.
Proof.
  intros Hs Hg. split.
  - apply (bfs_loop_no_raise start). by apply bfs_inv_init.
  - apply (astar_loop_no_raise start); [done|]. by apply astar_inv_init.
Qed.

Lemma searches_never_raise_witness :
  bfs 5 scenario_start canonical_goal ≠ Raise KeyError ∧
  a_star_misplaced 5 scenario_start canonical_goal ≠ Raise KeyError.
Proof.
  apply searches_never_raise; apply valid_check; reflexivity.
Defined.

Lemma index_None x l : x ∉ l → index x l = None.
Proof.
  intros H. destruct (index x l) as [i|] eqn:Hi; [|done].
  apply index_Some in Hi as [Hi _]. destruct H.
  by eapply list_elem_of_lookup_2.
Qed.

Lemma bfs_first_step fuel start goal :
  start ≠ goal →
  bfs (S fuel) start goal =
    (blank ← or_raise ValueError (index 0 start);
     ms ← or_raise KeyError (MOVES !! blank);
     '(queue', came_from') ←
       bfs_for start blank ms (Deque.Make [] []) {[ start := None ]};
     bfs_loop fuel goal (BfsState queue' came_from' 1%N)).
Proof.
  intros Hne. unfold bfs, bfs_init. cbn [bfs_loop]. unfold bfs_step.
  cbn [bfs_queue bfs_came_from bfs_expanded Deque.popleft Deque.of_list
       Deque.front Deque.back].
  rewrite decide_False by done.
  destruct (index 0 start) as [blank|]; [|done]. res_simpl.
  destruct (MOVES !! blank) as [ms|]; [|done]. res_simpl.
  by destruct (bfs_for _ _ _ _ _) as [[q cf]| |].
Qed.

Lemma astar_first_step fuel start goal :
  start ≠ goal →
  a_star_misplaced (S fuel) start goal =
    (blank ← or_raise ValueError (index 0 start);
     ms ← or_raise KeyError (MOVES !! blank);
     '(open_list', came_from', g_score') ←
       astar_for goal start blank ms Heapq.empty
         {[ start := None ]} {[ start := 0 ]};
     astar_loop fuel goal (AstarState open_list' came_from' g_score' 1%N)).
Proof.
  intros Hne. unfold a_star_misplaced, astar_init. cbn [astar_loop].
  unfold astar_step.
  cbn [as_open as_came_from as_g_score as_expanded Heapq.heappop
       Heapq.heappush Heapq.merge Heapq.empty Heapq.make Heapq.rank].
  rewrite decide_False by done.
  destruct (index 0 start) as [blank|]; [|done]. res_simpl.
  destruct (MOVES !! blank) as [ms|]; [|done]. res_simpl.
  by destruct (astar_for _ _ _ _ _ _ _) as [[[o cf] g]| |].
Qed.

(** X12. On a start that holds no blank and differs from the goal, both
    searches raise [ValueError] at [current.index(0)]. *)
Theorem searches_without_blank (fuel : nat) (start goal : state) :
  start ≠ goal → 0 ∉ start →
  bfs (S fuel) start goal = Raise ValueError ∧
  a_star_misplaced (S fuel) start goal = Raise ValueError.
Proof.
  intros Hne H0.
  rewrite (bfs_first_step fuel start goal Hne).
  rewrite (astar_first_step fuel start goal Hne).
  by rewrite (index_None 0 start H0).
Qed.

Lemma searches_without_blank_witness :
  bfs 1 [1; 2; 3] canonical_goal = Raise ValueError ∧
  a_star_misplaced 1 [1; 2; 3] canonical_goal = Raise ValueError.
Proof.
  apply searches_without_blank.
  - discriminate.
  - apply (bool_decide_eq_true_1 (0 ∉ [1; 2; 3])). reflexivity.
Defined.

(** X13. On a start whose first blank lies beyond the ninth cell and that
    differs from the goal, both searches raise [KeyError] at
    [MOVES[blank]]. *)
Theorem searches_blank_off_grid (fuel : nat) (start goal : state)
    (blank : nat) :
  start ≠ goal → index 0 start = Some blank → 9 ≤ blank →
  bfs (S fuel) start goal = Raise KeyError ∧
  a_star_misplaced (S fuel) start goal = Raise KeyError.
Proof.
  intros Hne Hi Hb.
  rewrite (bfs_first_step fuel start goal Hne).
  rewrite (astar_first_step fuel start goal Hne).
  rewrite Hi. res_simpl.
  assert (MOVES !! blank = None) as ->; [|done].
  destruct (MOVES !! blank) as [ms|] eqn:Hms; [|done].
  apply MOVES_lookup in Hms as [? _]. lia.
Qed.

Lemma searches_blank_off_grid_witness :
  bfs 1 [1; 2; 3; 4; 5; 6; 7; 8; 9; 0] canonical_goal = Raise KeyError ∧
  a_star_misplaced 1 [1; 2; 3; 4; 5; 6; 7; 8; 9; 0] canonical_goal
  = Raise KeyError.
Proof.
  apply (searches_blank_off_grid 0 [1; 2; 3; 4; 5; 6; 7; 8; 9; 0]
           canonical_goal 9).
  - discriminate.
  - reflexivity.
  - lia.
Defined.


(** * The solve button *)

(** The selected search returns with enough fuel, and what it returns is
    right. *)
Lemma search_total alg start goal :
  valid start → valid goal →
  ∀ fuel, n_states * n_states + 2 * n_states + 2 ≤ fuel →
    ∃ r n,
      match alg with
      | AStar => a_star_misplaced fuel start goal
      | BFS => bfs fuel start goal
      end = Ok (r, n) ∧
      match r with
      | Some path =>
          path_from_to path start goal ∧
          ∃ k, length path = S k ∧ min_moves start goal k
      | None => ¬ reachable start goal
      end.
Proof.
  intros Hs Hg fuel Hfuel. destruct alg.
  - apply astar_total; [done|done|lia].
  - apply bfs_total; [done|lia].
Qed.

(** X14. With enough fuel the handler shows, for valid states: the
    rejection with the inversion count when the start is odd; the page
    [No solution found] when the start is even and the goal odd; and
    otherwise a shortest path, with its number of moves. *)
Theorem solve_pages (start goal : state) :
  valid start → valid goal →
  ∃ fuel0, ∀ fuel alg, fuel0 ≤ fuel →
    match is_solvable start, is_solvable goal with
    | false, _ =>
        solve fuel alg start goal = Ok (NotSolvable (count_inversions start))
    | true, false => solve fuel alg start goal = Ok NoSolution
    | true, true =>
        ∃ path expanded,
          solve fuel alg start goal
          = Ok (Solution path (length path - 1) expanded) ∧
          path_from_to path start goal ∧
          min_moves start goal (length path - 1)
    end.
Proof.
  intros Hs Hg. exists (n_states * n_states + 2 * n_states + 2).
  intros fuel alg Hfuel. unfold solve.
  pose proof (reachable_parity start goal Hs Hg) as Hpar.
  destruct (is_solvable start); cbn [negb]; [|by destruct (is_solvable goal)].
  destruct (search_total alg start goal Hs Hg fuel Hfuel)
    as (r & n & -> & Hpost). res_simpl.
  destruct (is_solvable goal).
  - destruct r as [path|]; [|destruct Hpost; by apply Hpar].
    destruct Hpost as (Hp & k & Hlen & Hmin).
    exists path, n. split_and!; [done|done|].
    rewrite Hlen. cbn [Nat.sub]. by rewrite Nat.sub_0_r.
  - destruct r as [path|]; [|done]. destruct Hpost as [Hp _].
    apply path_reachable, Hpar in Hp. done.
Qed.

Lemma solve_pages_witness :
  ∃ fuel0, ∀ fuel alg, fuel0 ≤ fuel →
    match is_solvable canonical_goal, is_solvable scenario_3_start with
    | false, _ =>
        solve fuel alg canonical_goal scenario_3_start
        = Ok (NotSolvable (count_inversions canonical_goal))
    | true, false =>
        solve fuel alg canonical_goal scenario_3_start = Ok NoSolution
    | true, true =>
        ∃ path expanded,
          solve fuel alg canonical_goal scenario_3_start
          = Ok (Solution path (length path - 1) expanded) ∧
          path_from_to path canonical_goal scenario_3_start ∧
          min_moves canonical_goal scenario_3_start (length path - 1)
    end.
Proof.
  apply solve_pages; apply valid_check; reflexivity.
Defined.


(** * The animation *)

Lemma is_path_valid s p : valid s → is_path (s :: p) → Forall valid (s :: p).
Proof.
  revert s. induction p as [|s' p IH]; intros s Hv Hp.
  - by repeat constructor.
  - destruct Hp as [Hm Hp]. constructor; [done|].
    apply IH; [|done]. by eapply move_valid.
Qed.

Lemma step_views_astar goal g p :
  valid goal → is_path p → Forall valid p → last p = Some goal →
  ∃ views,
    step_views AStar goal g p = Ok views ∧ length views = length p ∧
    ∀ i v, views !! i = Some v →
      sv_g v = g + i ∧ p !! i = Some (sv_state v) ∧
      ∃ h, sv_h v = Some h ∧ sv_f v = Some (g + i + h) ∧
           i + h ≤ length p - 1 ∧ (S i = length p → h = 0).
Proof.
  intros Hg. revert g. induction p as [|s p IH]; intros g Hp Hv Hl; [done|].
  apply Forall_cons in Hv as [Hs Hv].
  assert (reach (length (s :: p) - 1) s goal) as Hr.
  { by apply is_path_reach. }
  pose proof (h_admissible _ _ _ Hr) as Hadm.
  cbn [step_views]. rewrite (h_misplaced_Ok s goal Hs Hg). res_simpl.
  generalize dependent (sum_list (misplaced_at s goal <$> seq 0 9)).
  intros h0 Hadm. cbn [length] in Hadm.
  destruct p as [|s' p].
  - cbn [step_views]. res_simpl.
    eexists. split; [done|]. split; [done|].
    intros [|i] v Hi; [|done].
    injection Hi as <-.
    cbn [sv_g sv_state sv_h sv_f fmap option_fmap option_map length] in *.
    split_and!; [lia|done|]. exists h0.
    split_and!; [done|f_equal; lia|lia|lia].
  - destruct (IH (S g)) as (views & -> & Hlen & Hviews);
      [by destruct Hp|done|done|]. res_simpl.
    eexists. split; [done|]. split; [cbn [length]; by rewrite Hlen|].
    intros [|i] v Hi.
    + injection Hi as <-.
      cbn [sv_g sv_state sv_h sv_f fmap option_fmap option_map length] in *.
      split_and!; [lia|done|]. exists h0.
      split_and!; [done|f_equal; lia|lia|lia].
    + destruct (Hviews i v Hi) as (Hgv & Hpi & h & Hh & Hf & Hle & Hlast).
      split_and!; [lia|done|]. exists h.
      split_and!; [done|rewrite Hf; f_equal; lia| |].
      * cbn [length] in *. lia.
      * intros Hi'. apply Hlast. cbn [length] in *. lia.
Qed.

(** X16. Under a path returned by A*, step [i] shows [g = i],
    [h = h_misplaced] of the state drawn and [f = g + h]; [f] never exceeds
    the solution length, and the last step shows [h = 0]. *)
Theorem astar_step_views (fuel : nat) (start goal : state)
    (path : list state) (expanded : N) :
  valid start → valid goal →
  a_star_misplaced fuel start goal = Ok (Some path, expanded) →
  ∃ views,
    step_views AStar goal 0 path = Ok views ∧ length views = length path ∧
    ∀ i v, views !! i = Some v →
      sv_g v = i ∧ path !! i = Some (sv_state v) ∧
      ∃ h, sv_h v = Some h ∧ sv_f v = Some (i + h) ∧
           i + h ≤ length path - 1 ∧ (S i = length path → h = 0).
Proof.
  intros Hs Hg Hrun.
  pose proof (astar_loop_sound start goal fuel _ _ _ Hg
                (astar_inv_init start goal Hs) Hrun) as [(Hh & Hl & Hp) _].
  destruct path as [|s path]; [done|]. injection Hh as ->.
  by apply step_views_astar; [|
     |apply is_path_valid|].
Qed.

Lemma astar_step_views_witness :
  ∃ views,
    step_views AStar canonical_goal 0
      [[1; 2; 3; 4; 5; 6; 0; 7; 8]; [1; 2; 3; 4; 5; 6; 7; 0; 8];
       canonical_goal] = Ok views ∧
    length views = 3 ∧
    ∀ i v, views !! i = Some v →
      sv_g v = i ∧
      [[1; 2; 3; 4; 5; 6; 0; 7; 8]; [1; 2; 3; 4; 5; 6; 7; 0; 8];
       canonical_goal] !! i = Some (sv_state v) ∧
      ∃ h, sv_h v = Some h ∧ sv_f v = Some (i + h) ∧
           i + h ≤ 3 - 1 ∧ (S i = 3 → h = 0).
Proof.
  assert (valid [1; 2; 3; 4; 5; 6; 0; 7; 8]) as Hs
    by (apply valid_check; reflexivity).
  assert (valid canonical_goal) as Hg by (apply valid_check; reflexivity).
  assert (a_star_misplaced 10 [1; 2; 3; 4; 5; 6; 0; 7; 8] canonical_goal
          = Ok (Some [[1; 2; 3; 4; 5; 6; 0; 7; 8]; [1; 2; 3; 4; 5; 6; 7; 0; 8];
                      canonical_goal], 3%N)) as Hrun
    by (vm_compute; reflexivity).
  exact (astar_step_views 10 _ _ _ _ Hs Hg Hrun).
Defined.
